(** * Mintstats: descriptive statistics over numeric collections

    A shallow embedding of [mintstats.ts] (the extractor, the rounding
    utility, the quickselect engine and the seven calculators) together
    with the properties stated about them.

    Modelling conventions.
    - A finite JavaScript number is an exact rational ([Qc], canonical
      rationals, so that [=] is the number equality [===]); [NaN] and the
      two infinities are separate constructors of [number].  Arithmetic on
      finite numbers is exact: binary64 rounding error and the sign of
      zero are not modelled.  A rounded result is therefore described as
      an output of [toFixedNumber], the expression the code evaluates, and
      not as a number that rounding leaves unchanged; and nothing is
      stated of mean, variance and stdev that would need their sums to
      be exact.
    - [Math.random] is an oracle [rand : nat -> Qc]; the n-th call returns
      [rand n], and the number of calls made so far is threaded through
      the code that draws from it.
    - [Math.sqrt] is a parameter of the development.
    - [Array.prototype.sort] with the comparator [(a, b) => a - b] is a
      stable merge sort by [<=].
    - An array is a [list]; indices are integers ([Z]) the way the source
      computes them, and a read or write outside the array leaves the
      modelled fragment (the source would read [undefined] or grow the
      array): it is the outcome [OutOfBounds], which the theorems show
      is not reached.
    - The calculators are embedded twice: on values, where an array is
      passed as the list of its elements, and, in [Store], on a store of
      arrays held by reference, which says which array every write goes
      to.  The two agree on what a call returns
      ([store_calculators_agree]). *)

From Stdlib Require Import QArith Qcanon Qround ZArith Lia.
From stdpp Require Import base numbers list sorting strings gmap.

Local Open Scope Z_scope.
#[local] Set Warnings "-register-all".

(** ** Values, errors, outcomes *)

Inductive number :=
| Fin (q : Qc)
| NaN
| PosInf
| NegInf.

Inductive value :=
| VUndefined
| VNull
| VBool (b : bool)
| VNumber (n : number)
| VString (s : string)
| VObject (fields : list (string * value))
| VArray (elems : list value).

(** The four errors the library throws itself, and the native [TypeError]
    of a property access on [null] or [undefined].
    - [InvalidInputKind]: [new TypeError("Input must be an array.")]
    - [NonNumericValue i v]:
      [new TypeError(`Invalid non-numeric value found at index ${i}: ${value}`)]
    - [InsufficientData]:
      [new RangeError("Sample variance requires at least 2 data points.")]
    - [InvalidRange]:
      [new RangeError("Percentile must be between 0 and 100.")] *)
Inductive error :=
| InvalidInputKind
| NonNumericValue (index : nat) (v : value)
| InsufficientData
| InvalidRange
| NullishAccess.

Inductive error_class := TypeError | RangeError.

Definition class_of (e : error) : error_class :=
  match e with
  | InvalidInputKind | NonNumericValue _ _ | NullishAccess => TypeError
  | InsufficientData | InvalidRange => RangeError
  end.

Inductive outcome (A : Type) :=
| Return (a : A)
| Throw (e : error)
| OutOfBounds.
Arguments Return {A} a.
Arguments Throw {A} e.
Arguments OutOfBounds {A}.

Global Instance outcome_ret : MRet outcome := λ A a, Return a.
Global Instance outcome_bind : MBind outcome := λ A B f m,
  match m with
  | Return a => f a
  | Throw e => Throw e
  | OutOfBounds => OutOfBounds
  end.

Definition of_option {A} (o : option A) : outcome A :=
  match o with
  | Some a => Return a
  | None => OutOfBounds
  end.

(** ** Numbers *)

Definition Qc_of_nat (n : nat) : Qc := Qc_of_Z (Z.of_nat n).

(** [Math.floor], [Math.ceil] and [Math.round] on a finite number.
    [Math.round] rounds half-way cases towards plus infinity. *)
Definition Math_floor (x : Qc) : Z := Qfloor x.
Definition Math_ceil (x : Qc) : Z := Qceiling x.
Definition Math_round (x : Qc) : Z := Qfloor (x + Q2Qc (1 # 2))%Qc.

Definition Qcltb (x y : Qc) : bool := bool_decide (x < y)%Qc.

(** [sum]: [nums.reduce((a, b) => a + b, 0)]. *)
Definition sum (nums : list Qc) : Qc := foldl Qcplus 0%Qc nums.

(** ** medianOf *)

(** Array read [arr[i]] with an integer index. *)
Definition get (arr : list Qc) (i : Z) : option Qc :=
  if decide (0 ≤ i) then arr !! Z.to_nat i else None.

Definition len (arr : list Qc) : Z := Z.of_nat (length arr).

Definition medianOf (arr : list Qc) : outcome Qc :=
  let mid := len arr / 2 in
  if decide (len arr mod 2 ≠ 0) then of_option (get arr mid)
  else
    a ← of_option (get arr (mid - 1));
    b ← of_option (get arr mid);
    Return ((a + b) / 2)%Qc.

(** ** extractNumbers *)

Fixpoint lookup_field (key : string) (fields : list (string * value)) : value :=
  match fields with
  | [] => VUndefined
  | (k, v) :: rest => if decide (k = key) then v else lookup_field key rest
  end.

(** [obj[key]].  Own properties of records only: properties inherited
    from prototypes and the exotic properties of strings and arrays are
    not modelled, such values answer [undefined]. *)
Definition get_field (key : string) (obj : value) : outcome value :=
  match obj with
  | VObject fields => Return (lookup_field key fields)
  | VUndefined | VNull => Throw NullishAccess
  | _ => Return VUndefined
  end.

(** [arr.map(obj => obj[key])] *)
Fixpoint project (key : string) (elems : list value) : outcome (list value) :=
  match elems with
  | [] => Return []
  | obj :: rest =>
      v ← get_field key obj;
      vs ← project key rest;
      Return (v :: vs)
  end.

(** The condition [key ? ... : ...]: an absent key and the empty string
    are both falsy. *)
Definition truthy (key : option string) : option string :=
  match key with
  | Some k => if decide (k = "") then None else Some k
  | None => None
  end.

(** The loop [for (let i = 0; i < mapped.length; i++)], from index [i] on,
    with the numbers pushed so far. *)
Fixpoint extract_loop (mapped : list value) (i : nat) (numbers : list Qc)
  : outcome (list Qc) :=
  match mapped with
  | [] => Return numbers
  | v :: rest =>
      match v with
      | VNull | VUndefined => extract_loop rest (S i) numbers
      | VNumber (Fin q) => extract_loop rest (S i) (numbers ++ [q])
      | _ => Throw (NonNumericValue i v)
      end
  end.

Definition extractNumbers (arr : value) (key : option string) : outcome (list Qc) :=
  match arr with
  | VArray elems =>
      if decide (length elems = 0%nat) then Return []
      else
        mapped ← match truthy key with
                 | Some k => project k elems
                 | None => Return elems
                 end;
        extract_loop mapped 0 []
  | _ => Throw InvalidInputKind
  end.

(** ** toFixedNumber *)

Definition toFixedNumber_at (precision : nat) (v : Qc) : Qc :=
  let factor := (Qc_of_Z 10 ^ precision)%Qc in
  (Qc_of_Z (Math_round (v * factor)) / factor)%Qc.

(** The default argument [precision = 10]. *)
Definition toFixedNumber (v : Qc) : Qc := toFixedNumber_at 10 v.

(** ** mean *)

Definition mean (arr : value) (key : option string) : outcome Qc :=
  nums ← extractNumbers arr key;
  if decide (length nums = 0%nat) then Return 0%Qc
  else Return (toFixedNumber (sum nums / Qc_of_nat (length nums))%Qc).

(** ** quickselect *)

(** Array write [arr[i] = v]. *)
Definition set (arr : list Qc) (i : Z) (v : Qc) : option (list Qc) :=
  if decide (0 ≤ i < len arr) then Some (<[Z.to_nat i := v]> arr) else None.

(** [[arr[i], arr[j]] = [arr[j], arr[i]]]: both reads, then both writes. *)
Definition swap (arr : list Qc) (i j : Z) : option (list Qc) :=
  y ← get arr j;
  x ← get arr i;
  arr1 ← set arr i y;
  set arr1 j x.

(** The loop [for (let i = left; i < right; i++)] with [n] iterations
    left to run. *)
Fixpoint partition_loop (n : nat) (arr : list Qc) (pivotValue : Qc)
    (i storeIndex : Z) : option (list Qc * Z) :=
  match n with
  | O => Some (arr, storeIndex)
  | S n' =>
      x ← get arr i;
      if Qcltb x pivotValue then
        arr' ← swap arr storeIndex i;
        partition_loop n' arr' pivotValue (i + 1) (storeIndex + 1)
      else partition_loop n' arr pivotValue (i + 1) storeIndex
  end.

(** The state of the [while] loop: the array, the bounds and the number
    of calls made to [Math.random]. *)
Record qs_state := QsState {
  qs_arr : list Qc;
  qs_left : Z;
  qs_right : Z;
  qs_calls : nat
}.

Inductive qs_step :=
| Continue (st : qs_state)
| Found (v : Qc) (arr : list Qc) (calls : nat).

(** One run of the body of [while (left <= right)]. *)
Definition qs_body (rand : nat → Qc) (k : Z) (st : qs_state) : option qs_step :=
  let arr := qs_arr st in
  let left := qs_left st in
  let right := qs_right st in
  let calls := qs_calls st in
  let pivotIndex := Math_floor (rand calls * Qc_of_Z (right - left + 1))%Qc + left in
  pivotValue ← get arr pivotIndex;
  arr1 ← swap arr pivotIndex right;
  '(arr2, storeIndex) ← partition_loop (Z.to_nat (right - left)) arr1 pivotValue left left;
  arr3 ← swap arr2 right storeIndex;
  if decide (k = storeIndex) then
    v ← get arr3 k; Some (Found v arr3 (S calls))
  else if decide (k < storeIndex) then
    Some (Continue (QsState arr3 left (storeIndex - 1) (S calls)))
  else
    Some (Continue (QsState arr3 (storeIndex + 1) right (S calls))).

(** How a call of [quickselect] ends: through [return arr[k]] inside the
    loop, through [return arr[left]] after it, on an access outside the
    array, or with the iteration budget of the model used up. *)
Inductive qs_result :=
| QsFound (v : Qc) (arr : list Qc) (calls : nat)
| QsFallback (v : option Qc) (arr : list Qc) (calls : nat)
| QsOutOfBounds
| QsOutOfFuel.

Fixpoint qs_loop (fuel : nat) (rand : nat → Qc) (k : Z) (st : qs_state) : qs_result :=
  if decide (qs_left st ≤ qs_right st) then
    match fuel with
    | O => QsOutOfFuel
    | S fuel' =>
        match qs_body rand k st with
        | None => QsOutOfBounds
        | Some (Found v arr calls) => QsFound v arr calls
        | Some (Continue st') => qs_loop fuel' rand k st'
        end
    end
  else QsFallback (get (qs_arr st) (qs_left st)) (qs_arr st) (qs_calls st).

(** The width of the bound, the measure of the loop. *)
Definition qs_width (st : qs_state) : nat := Z.to_nat (qs_right st - qs_left st + 1).

(** [quickselect(arr, k, left, right)].  The budget is the width of the
    initial bound, which no run exceeds ([quickselect_total]). *)
Definition quickselect (rand : nat → Qc) (arr : list Qc) (k left right : Z)
    (calls : nat) : qs_result :=
  let st := QsState arr left right calls in
  qs_loop (qs_width st) rand k st.

(** The value a caller receives, with the array and the oracle position
    the call leaves behind. *)
Definition qs_value (r : qs_result) : outcome (Qc * list Qc * nat) :=
  match r with
  | QsFound v arr calls => Return (v, arr, calls)
  | QsFallback (Some v) arr calls => Return (v, arr, calls)
  | _ => OutOfBounds
  end.

(** ** median *)

Definition THRESHOLD : Z := 32.

Definition sort (nums : list Qc) : list Qc := merge_sort Qcle nums.

Definition median_of (rand : nat → Qc) (nums : list Qc) : outcome Qc :=
  if decide (length nums = 0%nat) then Return 0%Qc
  else if decide (len nums < THRESHOLD) then
    let sorted := sort nums in
    medianOf sorted
  else
    let mid := len nums / 2 in
    if decide (len nums mod 2 ≠ 0) then
      '(v, _, _) ← qs_value (quickselect rand nums mid 0 (len nums - 1) 0);
      Return v
    else
      let copy := nums in
      '(m1, copy1, calls1) ← qs_value (quickselect rand copy (mid - 1) 0 (len copy - 1) 0);
      '(m2, _, _) ← qs_value (quickselect rand copy1 mid mid (len copy1 - 1) calls1);
      Return (toFixedNumber ((m1 + m2) / 2)%Qc).

Definition median (rand : nat → Qc) (arr : value) (key : option string) : outcome Qc :=
  nums ← extractNumbers arr key;
  median_of rand nums.

(** ** mode *)

(** [Map<number, number>]: the entries in insertion order, one per key. *)
Fixpoint map_get (n : Qc) (freq : list (Qc * nat)) : option nat :=
  match freq with
  | [] => None
  | (k, c) :: rest => if decide (k = n) then Some c else map_get n rest
  end.

Fixpoint map_set (n : Qc) (c : nat) (freq : list (Qc * nat)) : list (Qc * nat) :=
  match freq with
  | [] => [(n, c)]
  | (k, c') :: rest =>
      if decide (k = n) then (k, c) :: rest else (k, c') :: map_set n c rest
  end.

(** The body of [for (const n of nums)] on the pair [(freq, maxFreq)]. *)
Definition mode_count (st : list (Qc * nat) * nat) (n : Qc) : list (Qc * nat) * nat :=
  let currentCount := (default 0 (map_get n st.1) + 1)%nat in
  (map_set n currentCount st.1,
   if decide (st.2 < currentCount)%nat then currentCount else st.2).

Definition mode_of (nums : list Qc) : list Qc :=
  if decide (length nums = 0%nat) then []
  else
    let st := foldl mode_count ([], 0%nat) nums in
    let res := (filter (λ e, e.2 = st.2) st.1).*1 in
    sort res.

Definition mode (arr : value) (key : option string) : outcome (list Qc) :=
  nums ← extractNumbers arr key;
  Return (mode_of nums).

(** ** range *)

(** The loop [for (let i = 1; i < nums.length; i++)] on [(min, max)]. *)
Fixpoint range_loop (rest : list Qc) (min max : Qc) : Qc * Qc :=
  match rest with
  | [] => (min, max)
  | x :: rest' =>
      if Qcltb x min then range_loop rest' x max
      else if Qcltb max x then range_loop rest' min x
      else range_loop rest' min max
  end.

Definition range (arr : value) (key : option string) : outcome Qc :=
  nums ← extractNumbers arr key;
  match nums with
  | [] => Return 0%Qc
  | x0 :: rest => let mm := range_loop rest x0 x0 in Return (mm.2 - mm.1)%Qc
  end.

(** ** variance and stdev *)

Record VarianceOptions := {
  key : option string;
  isSample : option bool
}.

(** [sumOfSquares]:
    [nums.reduce((sum, num) => sum + Math.pow(num - meanValue, 2), 0)] *)
Definition sumOfSquares (nums : list Qc) (meanValue : Qc) : Qc :=
  foldl (λ sum num, sum + (num - meanValue) ^ 2)%Qc 0%Qc nums.

Definition variance (arr : value) (options : VarianceOptions) : outcome Qc :=
  let sample := default true (isSample options) in
  nums ← extractNumbers arr (key options);
  if decide (length nums = 0%nat) then Return 0%Qc
  else
    let divisor := if sample then len nums - 1 else len nums in
    if decide (divisor ≤ 0) then Throw InsufficientData
    else
      let meanValue := (sum nums / Qc_of_nat (length nums))%Qc in
      Return (toFixedNumber (sumOfSquares nums meanValue / Qc_of_Z divisor)%Qc).

Definition stdev (Math_sqrt : Qc → Qc) (arr : value) (options : VarianceOptions)
  : outcome Qc :=
  let sample := default true (isSample options) in
  nums ← extractNumbers arr (key options);
  if decide (length nums = 0%nat) then Return 0%Qc
  else
    let divisor := if sample then len nums - 1 else len nums in
    if decide (divisor ≤ 0) then Throw InsufficientData
    else
      let meanValue := (sum nums / Qc_of_nat (length nums))%Qc in
      let varianceValue := toFixedNumber (sumOfSquares nums meanValue / Qc_of_Z divisor)%Qc in
      Return (toFixedNumber (Math_sqrt varianceValue)).

(** ** percentile *)

(** [a < b] on JavaScript numbers. *)
Definition number_ltb (a b : number) : bool :=
  match a, b with
  | NaN, _ | _, NaN => false
  | Fin x, Fin y => Qcltb x y
  | NegInf, NegInf => false
  | NegInf, _ => true
  | _, NegInf => false
  | PosInf, _ => false
  | Fin _, PosInf => true
  end.

(** [Math.min(...nums)] and [Math.max(...nums)]. *)
Definition Math_min (nums : list Qc) : number :=
  match nums with
  | [] => PosInf
  | x :: rest => Fin (foldl (λ m y, if Qcltb y m then y else m) x rest)
  end.

Definition Math_max (nums : list Qc) : number :=
  match nums with
  | [] => NegInf
  | x :: rest => Fin (foldl (λ m y, if Qcltb m y then y else m) x rest)
  end.

Definition percentile (arr : value) (p : number) (key : option string)
  : outcome number :=
  if number_ltb p (Fin 0%Qc) || number_ltb (Fin (Qc_of_Z 100)) p then Throw InvalidRange
  else
    nums ← extractNumbers arr key;
    if decide (length nums = 0%nat) then Return (Fin 0%Qc)
    else
      match p with
      | Fin p =>
          if decide (p = 0%Qc) then Return (Math_min nums)
          else if decide (p = Qc_of_Z 100) then Return (Math_max nums)
          else
            let sorted := sort nums in
            let index := (p / Qc_of_Z 100 * Qc_of_Z (len sorted - 1))%Qc in
            let lowerIndex := Math_floor index in
            let upperIndex := Math_ceil index in
            if decide (lowerIndex = upperIndex) then
              v ← of_option (get sorted lowerIndex); Return (Fin v)
            else
              lowerValue ← of_option (get sorted lowerIndex);
              upperValue ← of_option (get sorted upperIndex);
              let weight := (index - Qc_of_Z lowerIndex)%Qc in
              Return (Fin (toFixedNumber
                             (lowerValue * (1 - weight) + upperValue * weight)%Qc))
      | _ =>
          (* [p] is [NaN] here: every comparison with it is false and the
             interpolation yields [NaN]. *)
          Return NaN
      end.

(** * Vocabulary of the properties *)

(** The specification of the extractor, on the projected values: a value
    is skipped when it is null or missing, it offends when it is anything
    else than a finite number, and the first offending value aborts the
    extraction. *)
Definition nullish (v : value) : bool :=
  match v with
  | VNull | VUndefined => true
  | _ => false
  end.

Definition finite (v : value) : option Qc :=
  match v with
  | VNumber (Fin q) => Some q
  | _ => None
  end.

Definition offending (v : value) : Prop := nullish v = false ∧ finite v = None.

Global Instance offending_dec v : Decision (offending v).
Proof. unfold offending. apply _. Defined.





(** [shuffled lo hi arr arr']: outside the bound [[lo, hi]] the two arrays
    agree, and inside it every value of [arr'] is a value [arr] has
    inside it. *)
Definition shuffled (lo hi : Z) (arr arr' : list Qc) : Prop :=
  (∀ m, m < lo ∨ hi < m → get arr' m = get arr m) ∧
  (∀ m x, lo ≤ m ≤ hi → get arr' m = Some x →
          ∃ m', lo ≤ m' ≤ hi ∧ get arr m' = Some x).

(** [ordered_across arr b]: every value before position [b] is at most
    every value from position [b] on. *)
Definition ordered_across (arr : list Qc) (b : Z) : Prop :=
  ∀ i j x y, i < b → b ≤ j → get arr i = Some x → get arr j = Some y → (x ≤ y)%Qc.

(** The oracle answers like [Math.random]: a number in [[0, 1)]. *)
Definition unit_interval (rand : nat → Qc) : Prop :=
  ∀ n, (0 ≤ rand n)%Qc ∧ (rand n < 1)%Qc.

(** The body of the loop up to the last swap: the array it leaves and
    [storeIndex]. *)
Definition partition_round (rand : nat → Qc) (st : qs_state) : option (list Qc * Z) :=
  let pivotIndex :=
    Math_floor (rand (qs_calls st) * Qc_of_Z (qs_right st - qs_left st + 1))%Qc
    + qs_left st in
  pivotValue ← get (qs_arr st) pivotIndex;
  arr1 ← swap (qs_arr st) pivotIndex (qs_right st);
  '(arr2, storeIndex) ← partition_loop (Z.to_nat (qs_right st - qs_left st)) arr1
                          pivotValue (qs_left st) (qs_left st);
  arr3 ← swap arr2 (qs_right st) storeIndex;
  Some (arr3, storeIndex).

(** Evaluation of a closed call: run the code, then compare the rational
    results by value. *)
Ltac qc_eval :=
  vm_compute;
  repeat first [reflexivity | apply Qc_is_canon; reflexivity | progress f_equal].

(** 1e-11, which rounding to 10 decimal digits turns into 0. *)
Definition tiny : Qc := Q2Qc (1 # 100000000000).

(** Sixteen zeros and sixteen times 1e-11: 32 values, the two middle ones
    are 0 and 1e-11. *)
Definition zeros_and_tinies : list Qc := replicate 16 0%Qc ++ replicate 16 tiny.

(** The number of occurrences of [v] in [nums]. *)
Definition frequency (v : Qc) (nums : list Qc) : nat :=
  length (filter (λ x, x = v) nums).

(** The state of the counting loop after the prefix [p] of the numbers. *)
Record mode_inv (p : list Qc) (st : list (Qc * nat) * nat) : Prop := {
  mode_inv_keys : NoDup st.1.*1;
  mode_inv_get : ∀ v, map_get v st.1 =
                      if decide (frequency v p = 0%nat) then None else Some (frequency v p);
  mode_inv_max : ∀ v, (frequency v p ≤ st.2)%nat;
  mode_inv_start : p = [] → st.2 = 0%nat;
  mode_inv_attained : p ≠ [] → ∃ v, frequency v p = st.2
}.

(** * The calculators on a store

    The same code with its arrays held by reference, to say which array
    each write goes to.  A location holds an array of values; the argument
    [arr] of a calculator is the location of the caller's collection.
    [[...nums]] allocates, [push], [sort] and the swaps of [quickselect]
    write to the location of the array they are called on, and [mapped]
    is the location of [arr] itself when no key is given. *)
Module Store.

Definition loc := positive.
Abbreviation store := (gmap loc (list value)).

Definition M (A : Type) : Type := store → outcome A * store.

Global Instance M_ret : MRet M := λ A a σ, (Return a, σ).
Global Instance M_bind : MBind M := λ A B k m σ,
  match m σ with
  | (Return a, σ') => k a σ'
  | (Throw e, σ') => (Throw e, σ')
  | (OutOfBounds, σ') => (OutOfBounds, σ')
  end.

(** A computation that does not touch the store. *)
Definition lift {A} (o : outcome A) : M A := λ σ, (o, σ).

(** A new array, [[]] or [[...xs]] or the result of [map]. *)
Definition alloc (vs : list value) : M loc := λ σ,
  let l := fresh (dom σ) in (Return l, <[l := vs]> σ).

Definition read (l : loc) : M (list value) := λ σ, (of_option (σ !! l), σ).

Definition write (l : loc) (vs : list value) : M unit := λ σ, (Return (), <[l := vs]> σ).

Definition numbers_of (vs : list value) : outcome (list Qc) := of_option (mapM finite vs).
Definition values_of (nums : list Qc) : list value := (λ q, VNumber (Fin q)) <$> nums.

Definition read_numbers (l : loc) : M (list Qc) := vs ← read l; lift (numbers_of vs).
Definition write_numbers (l : loc) (nums : list Qc) : M unit := write l (values_of nums).

(** [arr.push(v)] *)
Definition push (l : loc) (v : value) : M unit := vs ← read l; write l (vs ++ [v]).

(** [[...arr]] *)
Definition copy (l : loc) : M loc := vs ← read l; alloc vs.

(** [arr.sort((a, b) => a - b)], in place. *)
Definition sort_in_place (l : loc) : M unit :=
  nums ← read_numbers l; write_numbers l (sort nums).

(** The loop of the extractor, with [n] iterations left to run: it reads
    [mapped[i]] and pushes to [numbers]. *)
Fixpoint extract_loop (n : nat) (mapped numbers : loc) (i : nat) : M unit :=
  match n with
  | O => mret ()
  | S n' =>
      vs ← read mapped;
      v ← lift (of_option (vs !! i));
      match v with
      | VNull | VUndefined => extract_loop n' mapped numbers (S i)
      | VNumber (Fin q) =>
          _ ← push numbers v; extract_loop n' mapped numbers (S i)
      | _ => lift (Throw (NonNumericValue i v))
      end
  end.

Definition extractNumbers (arr : loc) (key : option string) : M loc :=
  elems ← read arr;
  if decide (length elems = 0%nat) then alloc []
  else
    mapped ← match truthy key with
             | Some k => vs ← lift (project k elems); alloc vs
             | None => mret arr
             end;
    numbers ← alloc [];
    vs ← read mapped;
    _ ← extract_loop (length vs) mapped numbers 0;
    mret numbers.

Definition mean (arr : loc) (key : option string) : M Qc :=
  l ← extractNumbers arr key;
  nums ← read_numbers l;
  if decide (length nums = 0%nat) then mret 0%Qc
  else mret (toFixedNumber (sum nums / Qc_of_nat (length nums))%Qc).

(** [quickselect] on the array at [arr]: the swaps end up in the store. *)
Definition quickselect (rand : nat → Qc) (arr : loc) (k left right : Z) (calls : nat)
  : M (Qc * nat) :=
  a ← read_numbers arr;
  match quickselect rand a k left right calls with
  | QsFound v a' calls' => _ ← write_numbers arr a'; mret (v, calls')
  | QsFallback (Some v) a' calls' => _ ← write_numbers arr a'; mret (v, calls')
  | _ => lift OutOfBounds
  end.

Definition median (rand : nat → Qc) (arr : loc) (key : option string) : M Qc :=
  l ← extractNumbers arr key;
  nums ← read_numbers l;
  if decide (length nums = 0%nat) then mret 0%Qc
  else if decide (len nums < THRESHOLD) then
    sorted ← copy l;
    _ ← sort_in_place sorted;
    s ← read_numbers sorted;
    lift (medianOf s)
  else
    let mid := len nums / 2 in
    if decide (len nums mod 2 ≠ 0) then
      c ← copy l;
      r ← quickselect rand c mid 0 (len nums - 1) 0;
      mret r.1
    else
      c ← copy l;
      r1 ← quickselect rand c (mid - 1) 0 (len nums - 1) 0;
      a ← read_numbers c;
      r2 ← quickselect rand c mid mid (len a - 1) r1.2;
      mret (toFixedNumber ((r1.1 + r2.1) / 2)%Qc).

Fixpoint push_all (l : loc) (nums : list Qc) : M unit :=
  match nums with
  | [] => mret ()
  | q :: rest => _ ← push l (VNumber (Fin q)); push_all l rest
  end.

(** [mode] returns the location of its result array. *)
Definition mode (arr : loc) (key : option string) : M loc :=
  l ← extractNumbers arr key;
  nums ← read_numbers l;
  if decide (length nums = 0%nat) then alloc []
  else
    let st := foldl mode_count ([], 0%nat) nums in
    res ← alloc [];
    _ ← push_all res (filter (λ e, e.2 = st.2) st.1).*1;
    _ ← sort_in_place res;
    mret res.

Definition range (arr : loc) (key : option string) : M Qc :=
  l ← extractNumbers arr key;
  nums ← read_numbers l;
  match nums with
  | [] => mret 0%Qc
  | x0 :: rest => let mm := range_loop rest x0 x0 in mret (mm.2 - mm.1)%Qc
  end.

Definition variance (arr : loc) (options : VarianceOptions) : M Qc :=
  let sample := default true (isSample options) in
  l ← extractNumbers arr (key options);
  nums ← read_numbers l;
  if decide (length nums = 0%nat) then mret 0%Qc
  else
    let divisor := if sample then len nums - 1 else len nums in
    if decide (divisor ≤ 0) then lift (Throw InsufficientData)
    else
      let meanValue := (sum nums / Qc_of_nat (length nums))%Qc in
      mret (toFixedNumber (sumOfSquares nums meanValue / Qc_of_Z divisor)%Qc).

Definition stdev (Math_sqrt : Qc → Qc) (arr : loc) (options : VarianceOptions) : M Qc :=
  let sample := default true (isSample options) in
  l ← extractNumbers arr (key options);
  nums ← read_numbers l;
  if decide (length nums = 0%nat) then mret 0%Qc
  else
    let divisor := if sample then len nums - 1 else len nums in
    if decide (divisor ≤ 0) then lift (Throw InsufficientData)
    else
      let meanValue := (sum nums / Qc_of_nat (length nums))%Qc in
      let varianceValue := toFixedNumber (sumOfSquares nums meanValue / Qc_of_Z divisor)%Qc in
      mret (toFixedNumber (Math_sqrt varianceValue)).

Definition percentile (arr : loc) (p : number) (key : option string) : M number :=
  if number_ltb p (Fin 0%Qc) || number_ltb (Fin (Qc_of_Z 100)) p
  then lift (Throw InvalidRange)
  else
    l ← extractNumbers arr key;
    nums ← read_numbers l;
    if decide (length nums = 0%nat) then mret (Fin 0%Qc)
    else
      match p with
      | Fin p =>
          if decide (p = 0%Qc) then mret (Math_min nums)
          else if decide (p = Qc_of_Z 100) then mret (Math_max nums)
          else
            c ← copy l;
            _ ← sort_in_place c;
            sorted ← read_numbers c;
            let index := (p / Qc_of_Z 100 * Qc_of_Z (len sorted - 1))%Qc in
            let lowerIndex := Math_floor index in
            let upperIndex := Math_ceil index in
            if decide (lowerIndex = upperIndex) then
              v ← lift (of_option (get sorted lowerIndex)); mret (Fin v)
            else
              lowerValue ← lift (of_option (get sorted lowerIndex));
              upperValue ← lift (of_option (get sorted upperIndex));
              let weight := (index - Qc_of_Z lowerIndex)%Qc in
              mret (Fin (toFixedNumber
                           (lowerValue * (1 - weight) + upperValue * weight)%Qc))
      | _ => mret NaN
      end.

(** ** What a call leaves of the caller's store

    [keeps σ0 m Q]: run from any store that extends [σ0], the computation
    [m] ends in a store that still extends [σ0], whether it returns or
    throws, and what it returns satisfies [Q]. *)
Definition keeps (σ0 : store) {A} (m : M A) (Q : A → Prop) : Prop :=
  ∀ σ, σ0 ⊆ σ → σ0 ⊆ (m σ).2 ∧ ∀ a, (m σ).1 = Return a → Q a.

(** A location the caller does not hold. *)
Definition unknown_to (σ0 : store) (l : loc) : Prop := σ0 !! l = None.

End Store.

(** * The JavaScript build

    [mintstats.js] is the same library written without types.  Its
    extractor has no early return on the empty array, its [mode] does not
    sort, its [variance] takes the key or the sample flag as one
    positional argument, its [stdev] calls [variance], and its
    [percentile] answers 0 where the TypeScript build throws. *)
Module Js.

Definition extractNumbers (arr : value) (key : option string) : outcome (list Qc) :=
  match arr with
  | VArray elems =>
      mapped ← match truthy key with
               | Some k => project k elems
               | None => Return elems
               end;
      extract_loop mapped 0 []
  | _ => Throw InvalidInputKind
  end.

Definition mean (arr : value) (key : option string) : outcome Qc :=
  nums ← extractNumbers arr key;
  if decide (length nums = 0%nat) then Return 0%Qc
  else Return (toFixedNumber (sum nums / Qc_of_nat (length nums))%Qc).

Definition HYBRID_THRESHOLD : Z := 32.

Definition median (rand : nat → Qc) (arr : value) (key : option string) : outcome Qc :=
  nums ← extractNumbers arr key;
  if decide (length nums = 0%nat) then Return 0%Qc
  else if decide (len nums < HYBRID_THRESHOLD) then
    let sorted := sort nums in
    medianOf sorted
  else
    let mid := len nums / 2 in
    if decide (len nums mod 2 ≠ 0) then
      '(v, _, _) ← qs_value (quickselect rand nums mid 0 (len nums - 1) 0);
      Return v
    else
      let copy := nums in
      '(m1, copy1, calls1) ← qs_value (quickselect rand copy (mid - 1) 0 (len copy - 1) 0);
      '(m2, _, _) ← qs_value (quickselect rand copy1 mid mid (len copy1 - 1) calls1);
      Return (toFixedNumber ((m1 + m2) / 2)%Qc).

(** [mode] returns [res] as the loop over the map entries filled it. *)
Definition mode (arr : value) (key : option string) : outcome (list Qc) :=
  nums ← extractNumbers arr key;
  if decide (length nums = 0%nat) then Return []
  else
    let st := foldl mode_count ([], 0%nat) nums in
    Return (filter (λ e, e.2 = st.2) st.1).*1.

Definition range (arr : value) (key : option string) : outcome Qc :=
  nums ← extractNumbers arr key;
  match nums with
  | [] => Return 0%Qc
  | x0 :: rest => let mm := range_loop rest x0 x0 in Return (mm.2 - mm.1)%Qc
  end.

(** [variance(arr, keyOrIsSample, isSample = true)]: the second argument
    is any value, the third is absent or a boolean. *)
Definition variance (arr : value) (keyOrIsSample : value) (isSample : option bool)
  : outcome Qc :=
  let isSample := default true isSample in
  let key := match keyOrIsSample with VString s => Some s | _ => None end in
  let sample := match keyOrIsSample with
                | VString _ => isSample
                | VBool b => b
                | _ => isSample
                end in
  nums ← extractNumbers arr key;
  let divisor := if sample then len nums - 1 else len nums in
  if decide (divisor ≤ 0) then
    if decide (length nums = 0%nat) then Return 0%Qc
    else Throw InsufficientData
  else
    let meanValue := (sum nums / Qc_of_nat (length nums))%Qc in
    Return (toFixedNumber (sumOfSquares nums meanValue / Qc_of_Z divisor)%Qc).

Definition stdev (Math_sqrt : Qc → Qc) (arr : value) (keyOrIsSample : value)
    (isSample : option bool) : outcome Qc :=
  let isSample := default true isSample in
  varianceValue ← variance arr keyOrIsSample (Some isSample);
  Return (toFixedNumber (Math_sqrt varianceValue)).

Definition percentile (arr : value) (p : number) (key : option string)
  : outcome number :=
  nums ← extractNumbers arr key;
  if bool_decide (length nums = 0%nat)
     || number_ltb p (Fin 0%Qc) || number_ltb (Fin (Qc_of_Z 100)) p
  then Return (Fin 0%Qc)
  else
    match p with
    | Fin p =>
        if decide (p = 0%Qc) then Return (Math_min nums)
        else if decide (p = Qc_of_Z 100) then Return (Math_max nums)
        else
          let sorted := sort nums in
          let index := (p / Qc_of_Z 100 * Qc_of_Z (len sorted - 1))%Qc in
          let lowerIndex := Math_floor index in
          let upperIndex := Math_ceil index in
          if decide (lowerIndex = upperIndex) then
            v ← of_option (get sorted lowerIndex); Return (Fin v)
          else
            lowerValue ← of_option (get sorted lowerIndex);
            upperValue ← of_option (get sorted upperIndex);
            let weight := (index - Qc_of_Z lowerIndex)%Qc in
            Return (Fin (toFixedNumber
                           (lowerValue * (1 - weight) + upperValue * weight)%Qc))
    | _ => Return NaN
    end.

End Js.

(** * The benchmark

    [median.bench.ts] times the library's [median] against a median by
    full sort, both on an array of numbers. *)
Definition sortBasedMedian (arr : list Qc) : outcome Qc :=
  if decide (length arr = 0%nat) then Return 0%Qc
  else
    let sorted := sort arr in
    let mid := len sorted / 2 in
    if decide (len sorted mod 2 ≠ 0) then of_option (get sorted mid)
    else
      a ← of_option (get sorted (mid - 1));
      b ← of_option (get sorted mid);
      Return ((a + b) / 2)%Qc.

Definition quickselectMedian (rand : nat → Qc) (arr : list Qc) : outcome Qc :=
  median rand (VArray ((λ q, VNumber (Fin q)) <$> arr)) None.

(** * Vocabulary of the further properties *)

(** The names [Object.prototype] gives to every plain record. *)
Definition Object_prototype_keys : list string :=
  ["constructor"; "hasOwnProperty"; "isPrototypeOf"; "propertyIsEnumerable";
   "toLocaleString"; "toString"; "valueOf"; "__proto__";
   "__defineGetter__"; "__defineSetter__"; "__lookupGetter__"; "__lookupSetter__"].

(** What the record [r] holds for the key [k]: the finite number [q], or
    nothing, when it has no such field or a null or undefined one. *)
Definition own_field (k : string) (r : list (string * value)) (o : option Qc) : Prop :=
  match o with
  | Some q => (k, VNumber (Fin q)) ∈ r
  | None => k ∉ r.*1 ∨ (k, VNull) ∈ r ∨ (k, VUndefined) ∈ r
  end.

(** A value that stands for a number, or for none. *)
Definition stands_for (v : value) (o : option Qc) : Prop :=
  match o with
  | Some q => v = VNumber (Fin q)
  | None => v = VNull ∨ v = VUndefined
  end.

(** * Properties *)

(** ** The usage examples of the source *)

Definition numbers : value :=
  VArray ((λ z, VNumber (Fin (Qc_of_Z z))) <$> [10; 20; 20; 30; 50]).

Definition students : value :=
  VArray [VObject [("name", VString "A"); ("score", VNumber (Fin (Qc_of_Z 85)))];
          VObject [("name", VString "B"); ("score", VNumber (Fin (Qc_of_Z 92)))];
          VObject [("name", VString "C"); ("score", VNumber (Fin (Qc_of_Z 78)))];
          VObject [("name", VString "D"); ("score", VNumber (Fin (Qc_of_Z 92)))]].

Example usage_numbers :
  mean numbers None = Return (Qc_of_Z 26) ∧
  median (λ _, 0%Qc) numbers None = Return (Qc_of_Z 20) ∧
  mode numbers None = Return [Qc_of_Z 20] ∧
  range numbers None = Return (Qc_of_Z 40).
Proof. repeat split; qc_eval. Qed.

Example usage_students :
  mean students (Some "score") = Return (Q2Qc (347 # 4)) ∧
  median (λ _, 0%Qc) students (Some "score") = Return (Q2Qc (177 # 2)) ∧
  mode students (Some "score") = Return [Qc_of_Z 92].
Proof. repeat split; qc_eval. Qed.

(** A record that is [null] makes the projection itself throw; without a
    key the same element is a null value and is skipped. *)
Example null_element_with_and_without_key :
  extractNumbers (VArray [VNull]) (Some "score") = Throw NullishAccess ∧
  extractNumbers (VArray [VNull]) None = Return [].
Proof. split; reflexivity. Qed.

(** ** The extractor *)






(** ** variance and stdev *)

(** C3.  The sample variance of the one observation [5] throws
    [InsufficientData]; the population variance of no observation is 0. *)
Theorem variance_single_sample_and_empty_population :
  variance (VArray [VNumber (Fin (Qc_of_Z 5))]) {| key := None; isSample := Some true |}
    = Throw InsufficientData ∧
  variance (VArray []) {| key := None; isSample := Some false |} = Return 0%Qc.
Proof. split; reflexivity. Qed.

(** The empty sequence is answered before the divisor is looked at:
    population mode on no observation returns 0, and so does sample mode,
    although the divisor is 0 and -1. *)
Lemma variance_empty_returns_zero :
  extractNumbers (VArray []) None = Return [] ∧
  variance (VArray []) {| key := None; isSample := Some false |} = Return 0%Qc ∧
  variance (VArray []) {| key := None; isSample := Some false |} ≠ Throw InsufficientData ∧
  variance (VArray []) {| key := None; isSample := Some true |} = Return 0%Qc ∧
  (∀ Math_sqrt, stdev Math_sqrt (VArray []) {| key := None; isSample := Some false |}
                = Return 0%Qc).
Proof. repeat split; done. Qed.

(** C2, as the code has it.  With the extracted sequence [nums], variance
    and stdev throw [InsufficientData], an error of the range class,
    exactly when sample mode is on and [nums] has one element; on the
    empty sequence they return 0 in either mode. *)
Theorem variance_stdev_insufficient_data Math_sqrt arr options nums :
  extractNumbers arr (key options) = Return nums →
  let sample := default true (isSample options) in
  (variance arr options = Throw InsufficientData ↔ sample = true ∧ length nums = 1%nat) ∧
  (stdev Math_sqrt arr options = Throw InsufficientData
     ↔ sample = true ∧ length nums = 1%nat) ∧
  (length nums = 0%nat →
     variance arr options = Return 0%Qc ∧ stdev Math_sqrt arr options = Return 0%Qc) ∧
  class_of InsufficientData = RangeError.
Proof.
  intros Hnums sample. unfold variance, stdev. rewrite Hnums. simpl.
  fold sample. unfold len.
  destruct (decide (length nums = 0%nat)) as [Hz|Hnz].
  - repeat split; try done; intros [_ ?]; lia.
  - destruct sample.
    + destruct (decide (Z.of_nat (length nums) - 1 ≤ 0)).
      * repeat split; try done; lia.
      * repeat split; try done; try lia; intros [_ ?]; lia.
    + destruct (decide (Z.of_nat (length nums) ≤ 0)); [lia|].
      repeat split; try done; try lia; intros [? _]; done.
Qed.

Lemma variance_stdev_insufficient_data_witness :
  variance (VArray [VNumber (Fin (Qc_of_Z 5))]) {| key := None; isSample := None |}
    = Throw InsufficientData.
Proof.
  apply (variance_stdev_insufficient_data (λ x, x)
           (VArray [VNumber (Fin (Qc_of_Z 5))]) {| key := None; isSample := None |}
           [Qc_of_Z 5] eq_refl).
  split; reflexivity.
Defined.

(** ** percentile *)







Lemma foldl_min_spec rest x :
  let m := foldl (λ m y, if Qcltb y m then y else m) x rest in
  m ∈ x :: rest ∧ ∀ y, y ∈ x :: rest → (m ≤ y)%Qc.
Proof.
  revert x. induction rest as [|z rest IH]; intros x; simpl.
  { split; [left|]. intros y ->%list_elem_of_singleton. done. }
  destruct (Qcltb z x) eqn:Hlt;
    [apply bool_decide_eq_true in Hlt|apply bool_decide_eq_false in Hlt].
  - destruct (IH z) as [Hin Hle]. split.
    + by right.
    + intros y [->|Hy]%elem_of_cons.
      * transitivity z; [apply Hle; left|by apply Qclt_le_weak].
      * by apply Hle.
  - destruct (IH x) as [Hin Hle]. apply Qcnot_lt_le in Hlt. split.
    + apply elem_of_cons in Hin as [->|Hin]; [left|by do 2 right].
    + intros y [->|[->|Hy]%elem_of_cons]%elem_of_cons.
      * apply Hle; left.
      * transitivity x; [apply Hle; left|done].
      * apply Hle. by right.
Qed.

Lemma foldl_max_spec rest x :
  let m := foldl (λ m y, if Qcltb m y then y else m) x rest in
  m ∈ x :: rest ∧ ∀ y, y ∈ x :: rest → (y ≤ m)%Qc.
Proof.
  revert x. induction rest as [|z rest IH]; intros x; simpl.
  { split; [left|]. intros y ->%list_elem_of_singleton. done. }
  destruct (Qcltb x z) eqn:Hlt;
    [apply bool_decide_eq_true in Hlt|apply bool_decide_eq_false in Hlt].
  - destruct (IH z) as [Hin Hle]. split.
    + by right.
    + intros y [->|Hy]%elem_of_cons.
      * transitivity z; [by apply Qclt_le_weak|apply Hle; left].
      * by apply Hle.
  - destruct (IH x) as [Hin Hle]. apply Qcnot_lt_le in Hlt. split.
    + apply elem_of_cons in Hin as [->|Hin]; [left|by do 2 right].
    + intros y [->|[->|Hy]%elem_of_cons]%elem_of_cons.
      * apply Hle; left.
      * transitivity x; [done|apply Hle; left].
      * apply Hle. by right.
Qed.

(** C7.  On a non-empty extracted sequence [x], the percentile at 0 is the
    least element of [x] and the percentile at 100 the greatest, each
    returned as it stands in [x], without interpolation or rounding. *)
Theorem percentile_0_is_min_100_is_max arr key x :
  extractNumbers arr key = Return x →
  x ≠ [] →
  (∃ m, percentile arr (Fin 0%Qc) key = Return (Fin m) ∧
        m ∈ x ∧ ∀ y, y ∈ x → (m ≤ y)%Qc) ∧
  (∃ M, percentile arr (Fin (Qc_of_Z 100)) key = Return (Fin M) ∧
        M ∈ x ∧ ∀ y, y ∈ x → (y ≤ M)%Qc).
Proof.
  intros Hx Hne. unfold percentile. rewrite Hx. simpl.
  destruct x as [|x0 rest]; [done|]. simpl.
  split.
  - eexists. split; [reflexivity|]. apply foldl_min_spec.
  - eexists. split; [reflexivity|]. apply foldl_max_spec.
Qed.

Lemma percentile_0_is_min_100_is_max_witness :
  ∃ m, percentile (VArray [VNumber (Fin (Qc_of_Z 3)); VNull; VNumber (Fin (Qc_of_Z 1))])
         (Fin 0%Qc) None = Return (Fin m) ∧ (m ≤ Qc_of_Z 1)%Qc.
Proof.
  destruct (percentile_0_is_min_100_is_max
              (VArray [VNumber (Fin (Qc_of_Z 3)); VNull; VNumber (Fin (Qc_of_Z 1))])
              None [Qc_of_Z 3; Qc_of_Z 1] eq_refl ltac:(discriminate))
    as [[m (Hm & _ & Hle)] _].
  exists m. split; [exact Hm|]. apply Hle. right. left.
Defined.

(** ** Arrays with integer indices *)

Lemma get_Some arr i x : get arr i = Some x ↔ 0 ≤ i ∧ arr !! Z.to_nat i = Some x.
Proof. unfold get. destruct (decide (0 ≤ i)); intuition congruence. Qed.

Lemma get_range arr i x : get arr i = Some x → 0 ≤ i < len arr.
Proof.
  intros H. apply get_Some in H as [? Hl]. apply lookup_lt_Some in Hl.
  unfold len. lia.
Qed.

Lemma get_in_range arr i : 0 ≤ i < len arr → is_Some (get arr i).
Proof.
  unfold get, len. intros ?. rewrite decide_True by lia.
  apply lookup_lt_is_Some. lia.
Qed.

Lemma get_elem_of arr i x : get arr i = Some x → x ∈ arr.
Proof. intros [_ ?]%get_Some. by eapply list_elem_of_lookup_2. Qed.

Lemma set_spec arr i v arr' :
  set arr i v = Some arr' →
  0 ≤ i < len arr ∧ len arr' = len arr ∧ get arr' i = Some v ∧
  ∀ m, m ≠ i → get arr' m = get arr m.
Proof.
  unfold set. destruct (decide (0 ≤ i < len arr)) as [Hi|]; [|done].
  intros [= <-]. unfold len in *. repeat split; try lia.
  - by rewrite length_insert.
  - apply get_Some. split; [lia|]. apply list_lookup_insert_eq. lia.
  - intros m Hm. unfold get. destruct (decide (0 ≤ m)); [|done].
    apply list_lookup_insert_ne. lia.
Qed.

Lemma swap_spec arr i j arr' :
  swap arr i j = Some arr' →
  (0 ≤ i < len arr ∧ 0 ≤ j < len arr) ∧ len arr' = len arr ∧ arr' ≡ₚ arr ∧
  get arr' i = get arr j ∧ get arr' j = get arr i ∧
  ∀ m, m ≠ i → m ≠ j → get arr' m = get arr m.
Proof.
  unfold swap. intros H.
  destruct (get arr j) as [y|] eqn:Hy; [|done].
  destruct (get arr i) as [x|] eqn:Hx; [|done]. simpl in H.
  destruct (set arr i y) as [arr1|] eqn:H1; [|done]. simpl in H.
  pose proof (get_range _ _ _ Hx) as Hi. pose proof (get_range _ _ _ Hy) as Hj.
  destruct (set_spec _ _ _ _ H1) as (_ & Hl1 & Hg1 & Ho1).
  destruct (set_spec _ _ _ _ H) as (_ & Hl2 & Hg2 & Ho2).
  split; [done|]. split; [congruence|]. split; [|split; [|split]].
  - unfold set in H1, H.
    destruct (decide (0 ≤ i < len arr)); [|done].
    destruct (decide (0 ≤ j < len arr1)); [|done].
    injection H1 as <-. injection H as <-.
    apply get_Some in Hx as [_ Hx]. apply get_Some in Hy as [_ Hy].
    by apply Permutation_insert_swap.
  - destruct (decide (i = j)) as [->|Hne]; [congruence|].
    by rewrite Ho2.
  - done.
  - intros m Hmi Hmj. rewrite Ho2 by done. by apply Ho1.
Qed.

Lemma swap_in_range arr i j :
  0 ≤ i < len arr → 0 ≤ j < len arr → is_Some (swap arr i j).
Proof.
  intros Hi Hj. unfold swap.
  destruct (get_in_range arr j Hj) as [y ->].
  destruct (get_in_range arr i Hi) as [x ->]. simpl.
  unfold set. rewrite decide_True by done. simpl.
  rewrite decide_True; [done|]. unfold len in *. by rewrite length_insert.
Qed.

Lemma shuffled_refl lo hi arr : shuffled lo hi arr arr.
Proof. split; eauto. Qed.

Lemma shuffled_trans lo hi a b c :
  shuffled lo hi a b → shuffled lo hi b c → shuffled lo hi a c.
Proof.
  intros [Hab1 Hab2] [Hbc1 Hbc2]. split.
  - intros m Hm. rewrite Hbc1 by done. by apply Hab1.
  - intros m x Hm Hx. destruct (Hbc2 m x Hm Hx) as (m' & Hm' & Hx'). eauto.
Qed.

Lemma shuffled_swap lo hi arr i j arr' :
  lo ≤ i ≤ hi → lo ≤ j ≤ hi → swap arr i j = Some arr' → shuffled lo hi arr arr'.
Proof.
  intros Hi Hj (_ & _ & _ & Hgi & Hgj & Ho)%swap_spec. split.
  - intros m Hm. apply Ho; lia.
  - intros m x Hm Hx.
    destruct (decide (m = i)) as [->|Hmi]; [exists j; split; [done|congruence]|].
    destruct (decide (m = j)) as [->|Hmj]; [exists i; split; [done|congruence]|].
    exists m. split; [done|]. by rewrite <- Ho.
Qed.

Lemma ordered_across_shuffled lo hi arr arr' b :
  shuffled lo hi arr arr' → b ≤ lo ∨ hi < b →
  ordered_across arr b → ordered_across arr' b.
Proof.
  intros [Hout Hin] Hb Hord i j x y Hi Hj Hx Hy.
  assert (∃ i', i' < b ∧ get arr i' = Some x) as (i' & Hi' & Hx').
  { destruct (decide (lo ≤ i ≤ hi)) as [Hr|Hr].
    - destruct (Hin i x Hr Hx) as (i' & Hi' & Hx'). exists i'. split; [lia|done].
    - exists i. split; [done|]. rewrite <- Hout; [done|lia]. }
  assert (∃ j', b ≤ j' ∧ get arr j' = Some y) as (j' & Hj' & Hy').
  { destruct (decide (lo ≤ j ≤ hi)) as [Hr|Hr].
    - destruct (Hin j y Hr Hy) as (j' & Hj' & Hy'). exists j'. split; [lia|done].
    - exists j. split; [done|]. rewrite <- Hout; [done|lia]. }
  eauto.
Qed.

Lemma shuffled_mono lo hi lo' hi' arr arr' :
  lo' ≤ lo → hi ≤ hi' → shuffled lo hi arr arr' → shuffled lo' hi' arr arr'.
Proof.
  intros Hlo Hhi [Hout Hin]. split.
  - intros m Hm. apply Hout. lia.
  - intros m x Hm Hx. destruct (decide (lo ≤ m ≤ hi)) as [Hr|Hr].
    + destruct (Hin m x Hr Hx) as (m' & ? & ?). exists m'. split; [lia|done].
    + exists m. split; [done|]. rewrite <- Hout; [done|lia].
Qed.

(** ** The partition loop *)

Lemma partition_loop_bounds n arr pv i s arr' s' :
  partition_loop n arr pv i s = Some (arr', s') → s ≤ s' ≤ s + Z.of_nat n.
Proof.
  revert arr i s. induction n as [|n IH]; intros arr i s; simpl.
  { intros [= <- <-]. lia. }
  destruct (get arr i) as [x|]; [|done]. simpl.
  destruct (Qcltb x pv).
  - destruct (swap arr s i) as [arr1|]; [|done]. simpl.
    intros H%IH. lia.
  - intros H%IH. lia.
Qed.

Lemma partition_loop_spec pv n arr i s :
  0 ≤ s ≤ i → i + Z.of_nat n ≤ len arr →
  (∀ m x, s ≤ m < i → get arr m = Some x → (pv ≤ x)%Qc) →
  ∃ arr' s',
    partition_loop n arr pv i s = Some (arr', s') ∧
    s ≤ s' ≤ i + Z.of_nat n ∧
    len arr' = len arr ∧ arr' ≡ₚ arr ∧
    shuffled s (i + Z.of_nat n - 1) arr arr' ∧
    (∀ m x, s ≤ m < s' → get arr' m = Some x → (x < pv)%Qc) ∧
    (∀ m x, s' ≤ m < i + Z.of_nat n → get arr' m = Some x → (pv ≤ x)%Qc).
Proof.
  revert arr i s. induction n as [|n IH]; intros arr i s Hs Hn Hge.
  { exists arr, s. simpl.
    split; [done|]. split; [lia|]. split; [done|]. split; [done|].
    split; [apply shuffled_refl|]. split.
    - intros m x Hm. lia.
    - intros m x Hm. apply Hge. lia. }
  simpl partition_loop.
  destruct (get_in_range arr i ltac:(lia)) as [x Hx]. rewrite Hx. simpl.
  destruct (Qcltb x pv) eqn:Hlt;
    [apply bool_decide_eq_true in Hlt|apply bool_decide_eq_false in Hlt].
  - destruct (swap_in_range arr s i ltac:(lia) ltac:(lia)) as [arr1 Hsw].
    rewrite Hsw. simpl.
    assert (shuffled s (i + Z.of_nat (S n) - 1) arr arr1) as Hsh1.
    { apply (shuffled_swap _ _ arr s i arr1); [lia|lia|done]. }
    destruct (swap_spec _ _ _ _ Hsw) as (_ & Hl1 & Hp1 & Hgs & Hgi & Ho).
    destruct (IH arr1 (i + 1) (s + 1)) as (arr' & s' & Hrun & Hb & Hl & Hp & Hsh & Hlo & Hhi).
    + lia.
    + lia.
    + intros m y Hm Hy. destruct (decide (m = i)) as [->|Hmi].
      * apply (Hge s); [lia|congruence].
      * apply (Hge m); [lia|]. rewrite <- Ho; [done|lia..].
    + exists arr', s'. rewrite Hrun.
      split; [done|]. split; [lia|]. split; [congruence|].
      split; [by rewrite Hp|]. split; [|split].
      * eapply shuffled_trans; [exact Hsh1|].
        eapply shuffled_mono; [| |exact Hsh]; lia.
      * intros m y Hm Hy. destruct (decide (m = s)) as [->|Hms].
        -- destruct Hsh as [Hout _]. rewrite Hout in Hy by lia.
           assert (y = x) as -> by congruence. done.
        -- apply (Hlo m); [lia|done].
      * intros m y Hm Hy. apply (Hhi m); [lia|done].
  - apply Qcnot_lt_le in Hlt.
    destruct (IH arr (i + 1) s) as (arr' & s' & Hrun & Hb & Hl & Hp & Hsh & Hlo & Hhi).
    + lia.
    + lia.
    + intros m y Hm Hy. destruct (decide (m = i)) as [->|Hmi].
      * assert (y = x) as -> by congruence. done.
      * apply (Hge m); [lia|done].
    + exists arr', s'. rewrite Hrun.
      split; [done|]. split; [lia|]. split; [done|]. split; [done|].
      split; [|split].
      * eapply shuffled_mono; [| |exact Hsh]; lia.
      * done.
      * intros m y Hm Hy. apply (Hhi m); [lia|done].
Qed.

(** ** One round of the selection loop *)

Section selection.
Context (rand : nat → Qc) (Hrand : unit_interval rand).

Lemma pivot_in_bound r left right :
  (0 ≤ r)%Qc → (r < 1)%Qc → left ≤ right →
  left ≤ Math_floor (r * Qc_of_Z (right - left + 1))%Qc + left ≤ right.
Proof.
  intros H0 H1 Hlr. set (w := right - left + 1).
  assert (0 < Qc_of_Z w)%Qc as Hw.
  { unfold Qclt. change (inject_Z 0 < inject_Z w)%Q. rewrite <- Zlt_Qlt. lia. }
  assert (0 ≤ r * Qc_of_Z w)%Qc as Hlo.
  { rewrite <- (Qcmult_0_l (Qc_of_Z w)).
    apply Qcmult_le_compat_r; [done|by apply Qclt_le_weak]. }
  assert (r * Qc_of_Z w < Qc_of_Z w)%Qc as Hhi.
  { rewrite <- (Qcmult_1_l (Qc_of_Z w)) at 2. by apply Qcmult_lt_compat_r. }
  unfold Math_floor. set (x := (r * Qc_of_Z w)%Qc) in *.
  assert (0 ≤ Qfloor x).
  { change 0 with (Qfloor (inject_Z 0)). by apply Qfloor_resp_le. }
  assert (Qfloor x < w).
  { rewrite Zlt_Qlt. eapply Qle_lt_trans; [apply Qfloor_le|]. exact Hhi. }
  lia.
Qed.

Lemma qs_body_round k st :
  qs_body rand k st =
    match partition_round rand st with
    | None => None
    | Some (arr3, storeIndex) =>
        if decide (k = storeIndex) then
          v ← get arr3 k; Some (Found v arr3 (S (qs_calls st)))
        else if decide (k < storeIndex) then
          Some (Continue (QsState arr3 (qs_left st) (storeIndex - 1) (S (qs_calls st))))
        else
          Some (Continue (QsState arr3 (storeIndex + 1) (qs_right st) (S (qs_calls st))))
    end.
Proof.
  unfold qs_body, partition_round.
  destruct (get (qs_arr st) _) as [pv|]; [|done]. simpl.
  destruct (swap (qs_arr st) _ _) as [arr1|]; [|done]. simpl.
  destruct (partition_loop _ _ _ _ _) as [[arr2 s]|]; [|done]. simpl.
  by destruct (swap arr2 _ _) as [arr3|].
Qed.

Lemma partition_round_bounds st arr3 s :
  qs_left st ≤ qs_right st →
  partition_round rand st = Some (arr3, s) → qs_left st ≤ s ≤ qs_right st.
Proof.
  intros Hlr. unfold partition_round.
  destruct (get (qs_arr st) _) as [pv|]; [|done]. simpl.
  destruct (swap (qs_arr st) _ _) as [arr1|]; [|done]. simpl.
  destruct (partition_loop _ _ _ _ _) as [[arr2 s2]|] eqn:Hloop; [|done]. simpl.
  destruct (swap arr2 _ _) as [arr3'|]; [|done]. simpl.
  intros [= <- <-]. apply partition_loop_bounds in Hloop. lia.
Qed.

Lemma partition_round_spec st :
  0 ≤ qs_left st → qs_left st ≤ qs_right st → qs_right st < len (qs_arr st) →
  ∃ arr3 s pv,
    partition_round rand st = Some (arr3, s) ∧
    qs_left st ≤ s ≤ qs_right st ∧
    len arr3 = len (qs_arr st) ∧ arr3 ≡ₚ qs_arr st ∧
    shuffled (qs_left st) (qs_right st) (qs_arr st) arr3 ∧
    get arr3 s = Some pv ∧
    (∀ m x, qs_left st ≤ m < s → get arr3 m = Some x → (x < pv)%Qc) ∧
    (∀ m x, s < m ≤ qs_right st → get arr3 m = Some x → (pv ≤ x)%Qc).
Proof.
  destruct st as [arr left right calls]. simpl. intros H0 Hlr Hr.
  unfold partition_round. simpl.
  destruct (Hrand calls) as [Hr0 Hr1].
  pose proof (pivot_in_bound _ _ _ Hr0 Hr1 Hlr) as Hpi.
  set (pivotIndex := Math_floor (rand calls * Qc_of_Z (right - left + 1))%Qc + left) in *.
  destruct (get_in_range arr pivotIndex ltac:(lia)) as [pv Hpv]. rewrite Hpv. simpl.
  destruct (swap_in_range arr pivotIndex right ltac:(lia) ltac:(lia)) as [arr1 Hsw1].
  rewrite Hsw1. simpl.
  destruct (swap_spec _ _ _ _ Hsw1) as (_ & Hl1 & Hp1 & _ & Hg1 & _).
  assert (shuffled left right arr arr1) as Hsh1.
  { apply (shuffled_swap _ _ arr pivotIndex right arr1); [lia|lia|done]. }
  destruct (partition_loop_spec pv (Z.to_nat (right - left)) arr1 left left)
    as (arr2 & s & Hloop & Hs & Hl2 & Hp2 & Hsh2 & Hlo & Hhi).
  { lia. }
  { lia. }
  { intros m x Hm. lia. }
  rewrite Hloop. simpl.
  rewrite Z2Nat.id in Hs, Hsh2, Hhi by lia.
  replace (left + (right - left)) with right in Hs, Hsh2, Hhi by lia.
  destruct (swap_in_range arr2 right s ltac:(lia) ltac:(lia)) as [arr3 Hsw3].
  rewrite Hsw3. simpl.
  destruct (swap_spec _ _ _ _ Hsw3) as (_ & Hl3 & Hp3 & Hgr & Hgs & Ho3).
  assert (get arr2 right = Some pv) as Hright.
  { destruct Hsh2 as [Hout _]. rewrite Hout by lia. congruence. }
  exists arr3, s, pv.
  split; [done|]. split; [lia|]. split; [congruence|].
  split; [by rewrite Hp3, Hp2|]. split; [|split; [|split]].
  - eapply shuffled_trans; [exact Hsh1|].
    eapply shuffled_trans; [eapply shuffled_mono; [| |exact Hsh2]; lia|].
    apply (shuffled_swap _ _ arr2 right s arr3); [lia|lia|done].
  - congruence.
  - intros m x Hm Hx. apply (Hlo m); [lia|]. rewrite <- Ho3; [done|lia..].
  - intros m x Hm Hx. destruct (decide (m = right)) as [->|Hmr].
    + apply (Hhi s); [lia|congruence].
    + apply (Hhi m); [lia|]. rewrite <- Ho3; [done|lia..].
Qed.

Lemma partition_round_ordered arr3 left right s pv :
  left ≤ s ≤ right →
  get arr3 s = Some pv →
  (∀ m x, left ≤ m < s → get arr3 m = Some x → (x < pv)%Qc) →
  (∀ m x, s < m ≤ right → get arr3 m = Some x → (pv ≤ x)%Qc) →
  ordered_across arr3 left → ordered_across arr3 (right + 1) →
  ordered_across arr3 s ∧ ordered_across arr3 (s + 1).
Proof.
  intros Hs Hpv Hlo Hhi Hbelow Habove.
  assert (∀ m x, left ≤ m ≤ s → get arr3 m = Some x → (x ≤ pv)%Qc) as Hlo'.
  { intros m x Hm Hx. destruct (decide (m = s)) as [->|Hne].
    - assert (x = pv) as -> by congruence. done.
    - apply Qclt_le_weak, (Hlo m); [lia|done]. }
  assert (∀ m x, s ≤ m ≤ right → get arr3 m = Some x → (pv ≤ x)%Qc) as Hhi'.
  { intros m x Hm Hx. destruct (decide (m = s)) as [->|Hne].
    - assert (x = pv) as -> by congruence. done.
    - apply (Hhi m); [lia|done]. }
  split; intros i j x y Hi Hj Hx Hy.
  - destruct (decide (i < left)) as [Hil|Hil]; [apply (Hbelow i j); [lia..|done|done]|].
    destruct (decide (right < j)) as [Hjr|Hjr]; [apply (Habove i j); [lia..|done|done]|].
    transitivity pv; [apply (Hlo' i); [lia|done]|apply (Hhi' j); [lia|done]].
  - destruct (decide (i < left)) as [Hil|Hil]; [apply (Hbelow i j); [lia..|done|done]|].
    destruct (decide (right < j)) as [Hjr|Hjr]; [apply (Habove i j); [lia..|done|done]|].
    transitivity pv; [apply (Hlo' i); [lia|done]|apply (Hhi' j); [lia|done]].
Qed.

(** ** The selection loop *)

(** Whenever the body of the loop hands over to a next iteration, the
    bound has become narrower. *)
Lemma qs_body_narrows k st st' :
  qs_left st ≤ qs_right st →
  qs_body rand k st = Some (Continue st') →
  (qs_width st' < qs_width st)%nat.
Proof.
  intros Hlr. rewrite qs_body_round.
  destruct (partition_round rand st) as [[arr3 s]|] eqn:Hround; [|done].
  apply partition_round_bounds in Hround; [|done].
  destruct (decide (k = s)); [by destruct (get arr3 k)|].
  unfold qs_width. destruct (decide (k < s)); intros [= <-]; simpl; lia.
Qed.

(** The budget of [quickselect] is never used up. *)
Lemma qs_loop_total k fuel st :
  (qs_width st ≤ fuel)%nat → qs_loop fuel rand k st ≠ QsOutOfFuel.
Proof.
  revert st. induction fuel as [|fuel IH]; intros st Hw; simpl.
  - destruct (decide (qs_left st ≤ qs_right st)); [|done].
    unfold qs_width in Hw. lia.
  - destruct (decide (qs_left st ≤ qs_right st)) as [Hlr|]; [|done].
    destruct (qs_body rand k st) as [[st'|v arr c]|] eqn:Hbody; [|done..].
    apply IH. apply qs_body_narrows in Hbody; [lia|done].
Qed.

Lemma quickselect_total arr k left right calls :
  quickselect rand arr k left right calls ≠ QsOutOfFuel.
Proof. unfold quickselect. by apply qs_loop_total. Qed.

Lemma qs_loop_fuel k fuel fuel' st :
  (qs_width st ≤ fuel)%nat → (qs_width st ≤ fuel')%nat →
  qs_loop fuel rand k st = qs_loop fuel' rand k st.
Proof.
  revert fuel' st. induction fuel as [|fuel IH]; intros fuel' st Hw Hw'.
  - destruct fuel'; simpl; [done|].
    destruct (decide (qs_left st ≤ qs_right st)); [|done].
    unfold qs_width in Hw. lia.
  - destruct fuel' as [|fuel']; simpl.
    + destruct (decide (qs_left st ≤ qs_right st)); [|done].
      unfold qs_width in Hw'. lia.
    + destruct (decide (qs_left st ≤ qs_right st)) as [Hlr|]; [|done].
      destruct (qs_body rand k st) as [[st'|v arr c]|] eqn:Hbody; [|done..].
      apply qs_body_narrows in Hbody; [|done]. apply IH; lia.
Qed.

(** With the target rank inside a bound that lies inside the array, the
    loop ends in [return arr[k]]; the array it leaves is a rearrangement
    of the one it was given, and when the bound was ordered against the
    rest of the array, position [k] splits the array. *)
Lemma qs_loop_found k fuel st :
  0 ≤ qs_left st → qs_left st ≤ k ≤ qs_right st → qs_right st < len (qs_arr st) →
  (qs_width st ≤ fuel)%nat →
  ∃ v arr' calls',
    qs_loop fuel rand k st = QsFound v arr' calls' ∧
    get arr' k = Some v ∧ len arr' = len (qs_arr st) ∧ arr' ≡ₚ qs_arr st ∧
    (ordered_across (qs_arr st) (qs_left st) →
     ordered_across (qs_arr st) (qs_right st + 1) →
     ordered_across arr' k ∧ ordered_across arr' (k + 1)).
Proof.
  revert st.
  induction fuel as [|fuel IH]; intros st H0 Hk Hr Hw.
  { unfold qs_width in Hw. lia. }
  simpl. rewrite decide_True by lia. rewrite qs_body_round.
  destruct (partition_round_spec st H0 ltac:(lia) Hr)
    as (arr3 & s & pv & -> & Hs & Hl & Hp & Hsh & Hpv & Hlo & Hhi).
  assert (ordered_across (qs_arr st) (qs_left st) →
          ordered_across (qs_arr st) (qs_right st + 1) →
          (ordered_across arr3 (qs_left st) ∧ ordered_across arr3 (qs_right st + 1)) ∧
          ordered_across arr3 s ∧ ordered_across arr3 (s + 1)) as Hord.
  { intros Hb Ha.
    assert (ordered_across arr3 (qs_left st)) as Hb'.
    { eapply ordered_across_shuffled; [exact Hsh|lia|done]. }
    assert (ordered_across arr3 (qs_right st + 1)) as Ha'.
    { eapply ordered_across_shuffled; [exact Hsh|lia|done]. }
    split; [done|]. by eapply partition_round_ordered. }
  destruct (decide (k = s)) as [->|Hks].
  - rewrite Hpv. simpl. exists pv, arr3, (S (qs_calls st)).
    split; [done|]. split; [done|]. split; [done|]. split; [done|].
    intros Hb Ha. by apply Hord.
  - destruct (decide (k < s)) as [Hlt|Hge].
    + destruct (IH (QsState arr3 (qs_left st) (s - 1) (S (qs_calls st))))
        as (v & arr' & calls' & Hrun & Hv & Hl' & Hp' & Hord'); simpl.
      * done.
      * lia.
      * lia.
      * unfold qs_width in *. simpl. lia.
      * exists v, arr', calls'. simpl in *.
        split; [done|]. split; [done|]. split; [congruence|].
        split; [by rewrite Hp'|].
        intros Hb Ha. destruct (Hord Hb Ha) as ((Hb3 & Ha3) & Hs3 & Hs3').
        apply Hord'; [done|]. by replace (s - 1 + 1) with s by lia.
    + destruct (IH (QsState arr3 (s + 1) (qs_right st) (S (qs_calls st))))
        as (v & arr' & calls' & Hrun & Hv & Hl' & Hp' & Hord'); simpl.
      * lia.
      * lia.
      * lia.
      * unfold qs_width in *. simpl. lia.
      * exists v, arr', calls'. simpl in *.
        split; [done|]. split; [done|]. split; [congruence|].
        split; [by rewrite Hp'|].
        intros Hb Ha. destruct (Hord Hb Ha) as ((Hb3 & Ha3) & Hs3 & Hs3').
        by apply Hord'.
Qed.

End selection.

(** C9.  With [0 <= left <= k <= right < length a], and whatever the
    oracle answers, every iteration of the loop that does not return
    narrows the bound, the call ends in the branch [return arr[k]] and
    never in the [return arr[left]] after the loop, and a larger iteration
    budget changes nothing. *)
Theorem quickselect_terminates_in_found_branch rand a k left right calls :
  unit_interval rand →
  0 ≤ left → left ≤ k → k ≤ right → right < len a →
  (∀ st st', qs_left st ≤ qs_right st → qs_body rand k st = Some (Continue st') →
             (qs_width st' < qs_width st)%nat) ∧
  (∃ v a' calls',
     quickselect rand a k left right calls = QsFound v a' calls' ∧
     get a' k = Some v ∧ a' ≡ₚ a) ∧
  (∀ v a' calls', quickselect rand a k left right calls ≠ QsFallback v a' calls') ∧
  (∀ fuel, (qs_width (QsState a left right calls) ≤ fuel)%nat →
           qs_loop fuel rand k (QsState a left right calls)
           = quickselect rand a k left right calls).
Proof.
  intros Hrand H0 Hlk Hkr Hr.
  destruct (qs_loop_found rand Hrand k (qs_width (QsState a left right calls))
              (QsState a left right calls))
    as (v & a' & calls' & Hrun & Hv & _ & Hp & _); simpl; try done.
  split; [|split; [|split]].
  - intros st st'. apply qs_body_narrows.
  - exists v, a', calls'. done.
  - intros v' a'' calls''. unfold quickselect. rewrite Hrun. done.
  - intros fuel Hfuel. unfold quickselect. by apply qs_loop_fuel.
Qed.

Lemma quickselect_terminates_in_found_branch_witness :
  ∃ v a' calls',
    quickselect (λ _, Q2Qc (1 # 2)) [Qc_of_Z 3; Qc_of_Z 1; Qc_of_Z 2] 1 0 2 0
      = QsFound v a' calls' ∧ get a' 1 = Some v.
Proof.
  destruct (quickselect_terminates_in_found_branch (λ _, Q2Qc (1 # 2))
              [Qc_of_Z 3; Qc_of_Z 1; Qc_of_Z 2] 1 0 2 0) as (_ & Hfound & _).
  - intros n. split; [by vm_compute|reflexivity].
  - lia.
  - lia.
  - lia.
  - reflexivity.
  - destruct Hfound as (v & a' & calls' & Hq & Hv & _). eauto.
Defined.

(** ** Order statistics *)

Lemma sort_sorted nums : StronglySorted Qcle (sort nums).
Proof. apply StronglySorted_merge_sort; apply _. Qed.

Lemma sort_perm nums : sort nums ≡ₚ nums.
Proof. apply merge_sort_Permutation. Qed.

Lemma sort_length nums : len (sort nums) = len nums.
Proof. unfold len. by rewrite sort_perm. Qed.

Lemma sort_of_perm nums nums' : nums ≡ₚ nums' → sort nums = sort nums'.
Proof.
  intros Hp. apply (StronglySorted_unique Qcle); [apply sort_sorted..|].
  by rewrite !sort_perm.
Qed.

(** A position that splits a rearrangement of [arr] holds the value the
    sorted [arr] has at that position. *)
Lemma split_is_order_statistic arr arr' k v :
  arr' ≡ₚ arr → get arr' k = Some v →
  ordered_across arr' k → ordered_across arr' (k + 1) →
  get (sort arr) k = Some v.
Proof.
  intros Hp Hv Hbelow Habove.
  apply get_Some in Hv as [Hk Hv]. set (kn := Z.to_nat k) in *.
  pose proof (lookup_lt_Some _ _ _ Hv) as Hlen.
  set (L := take kn arr'). set (R := drop (S kn) arr').
  assert (arr' = L ++ v :: R) as Harr by (symmetry; by apply take_drop_middle).
  assert (∀ x, x ∈ L → (x ≤ v)%Qc) as HL.
  { intros x [i Hi]%list_elem_of_lookup_1.
    apply lookup_take_Some in Hi as [Hi Hlt].
    apply (Hbelow (Z.of_nat i) k); [lia|lia| |].
    - apply get_Some. split; [lia|]. by rewrite Nat2Z.id.
    - apply get_Some. done. }
  assert (∀ y, y ∈ R → (v ≤ y)%Qc) as HR.
  { intros y [j Hj]%list_elem_of_lookup_1. unfold R in Hj.
    rewrite lookup_drop in Hj.
    apply (Habove k (Z.of_nat (S kn + j))); [lia|lia| |].
    - apply get_Some. done.
    - apply get_Some. split; [lia|]. by rewrite Nat2Z.id. }
  assert (sort arr = sort L ++ v :: sort R) as ->.
  { apply (StronglySorted_unique Qcle).
    - apply sort_sorted.
    - apply StronglySorted_app. split; [|split].
      + intros x1 x2 Hx1 Hx2. rewrite sort_perm in Hx1.
        apply elem_of_cons in Hx2 as [->|Hx2]; [by apply HL|].
        rewrite sort_perm in Hx2. transitivity v; [by apply HL|by apply HR].
      + apply sort_sorted.
      + apply StronglySorted_cons. split; [|apply sort_sorted].
        apply Forall_forall. intros y Hy. rewrite sort_perm in Hy. by apply HR.
    - rewrite !sort_perm, <- Hp, Harr. done. }
  apply get_Some. split; [done|].
  assert (length (sort L) = kn) as HlenL.
  { rewrite sort_perm. unfold L. rewrite length_take. lia. }
  rewrite lookup_app_r by lia. fold kn. by rewrite HlenL, Nat.sub_diag.
Qed.

(** ** median *)

Lemma ordered_across_lo arr b : b ≤ 0 → ordered_across arr b.
Proof. intros Hb i j x y Hi _ Hx%get_range _. lia. Qed.

Lemma ordered_across_hi arr b : len arr ≤ b → ordered_across arr b.
Proof. intros Hb i j x y _ Hj _ Hy%get_range. lia. Qed.

(** [quickselect] at rank [k] inside [[left, len - 1]], on an array whose
    part before [left] is ordered against the rest, returns the value of
    rank [k] of the sorted array. *)
Lemma quickselect_selects rand arr k left calls :
  unit_interval rand →
  0 ≤ left → left ≤ k → k < len arr →
  ordered_across arr left →
  ∃ v arr' calls',
    quickselect rand arr k left (len arr - 1) calls = QsFound v arr' calls' ∧
    get (sort arr) k = Some v ∧
    len arr' = len arr ∧ arr' ≡ₚ arr ∧
    ordered_across arr' k ∧ ordered_across arr' (k + 1).
Proof.
  intros Hrand H0 Hlk Hk Hbelow.
  destruct (qs_loop_found rand Hrand k (qs_width (QsState arr left (len arr - 1) calls))
              (QsState arr left (len arr - 1) calls))
    as (v & arr' & calls' & Hrun & Hv & Hl & Hp & Hord); simpl in *; try lia.
  destruct Hord as [Hk1 Hk2]; [done|apply ordered_across_hi; lia|].
  exists v, arr', calls'. split; [done|].
  split; [by eapply split_is_order_statistic|done].
Qed.

Lemma half_bounds n : 0 < n → 0 ≤ n / 2 < n.
Proof.
  intros Hn. pose proof (Z.div_mod n 2 ltac:(lia)).
  pose proof (Z.mod_pos_bound n 2 ltac:(lia)). lia.
Qed.

Lemma half_even_bounds n : 0 < n → n mod 2 = 0 → 0 ≤ n / 2 - 1.
Proof.
  intros Hn Hmod. pose proof (Z.div_mod n 2 ltac:(lia)). lia.
Qed.

(** The median by full sort is defined on every non-empty sequence. *)
Lemma medianOf_sort_defined nums :
  nums ≠ [] → ∃ m, medianOf (sort nums) = Return m.
Proof.
  intros Hne. unfold medianOf. rewrite sort_length.
  assert (0 < len nums) as Hpos by (unfold len; destruct nums; [done|simpl; lia]).
  pose proof (half_bounds _ Hpos) as Hmid.
  destruct (get_in_range (sort nums) (len nums / 2)) as [b Hb].
  { rewrite sort_length. lia. }
  destruct (decide (len nums mod 2 ≠ 0)) as [Hodd|Heven].
  - rewrite Hb. eauto.
  - destruct (get_in_range (sort nums) (len nums / 2 - 1)) as [a Ha].
    { rewrite sort_length. pose proof (half_even_bounds _ Hpos). lia. }
    rewrite Ha, Hb. simpl. eauto.
Qed.

(** The hybrid strategy against the full sort, on the extracted
    sequence. *)
Lemma median_of_agrees rand nums :
  unit_interval rand →
  nums ≠ [] →
  ∃ m, medianOf (sort nums) = Return m ∧
       median_of rand nums =
         Return (if decide (THRESHOLD ≤ len nums ∧ len nums mod 2 = 0)
                 then toFixedNumber m else m).
Proof.
  intros Hrand Hne.
  destruct (medianOf_sort_defined nums Hne) as [m Hm]. exists m. split; [done|].
  unfold median_of.
  assert (0 < len nums) as Hpos by (unfold len; destruct nums; [done|simpl; lia]).
  rewrite decide_False by (unfold len in Hpos; lia).
  destruct (decide (len nums < THRESHOLD)) as [Hsmall|Hlarge].
  { rewrite decide_False by lia. done. }
  pose proof (half_bounds _ Hpos) as Hmid.
  unfold medianOf in Hm. rewrite sort_length in Hm.
  destruct (decide (len nums mod 2 ≠ 0)) as [Hodd|Heven].
  - rewrite decide_False by lia.
    destruct (quickselect_selects rand nums (len nums / 2) 0 0 Hrand)
      as (v & arr' & calls' & -> & Hv & _); [lia..|by apply ordered_across_lo|].
    simpl. rewrite Hv in Hm. simpl in Hm. congruence.
  - rewrite decide_True by lia.
    pose proof (half_even_bounds _ Hpos ltac:(lia)) as Hmid1.
    destruct (quickselect_selects rand nums (len nums / 2 - 1) 0 0 Hrand)
      as (m1 & copy1 & calls1 & -> & Hm1 & Hl1 & Hp1 & _ & Hord1);
      [lia..|by apply ordered_across_lo|].
    simpl.
    replace (len nums / 2 - 1 + 1) with (len nums / 2) in Hord1 by lia.
    destruct (quickselect_selects rand copy1 (len nums / 2) (len nums / 2) calls1 Hrand)
      as (m2 & copy2 & calls2 & -> & Hm2 & _); [lia..|done|].
    simpl. rewrite (sort_of_perm _ _ Hp1) in Hm2.
    rewrite Hm1, Hm2 in Hm. simpl in Hm. congruence.
Qed.

(** C1, as the code has it.  On a non-empty extracted sequence, and
    whatever the oracle answers, the hybrid median is the median by full
    sort below the threshold and for an odd count; for an even count at or
    above the threshold, where both selections run on one working copy,
    it is the median by full sort rounded to 10 decimal digits. *)
Theorem median_hybrid_agrees_with_sort rand arr key nums :
  unit_interval rand →
  extractNumbers arr key = Return nums →
  nums ≠ [] →
  ∃ m, medianOf (sort nums) = Return m ∧
       median rand arr key =
         Return (if decide (THRESHOLD ≤ len nums ∧ len nums mod 2 = 0)
                 then toFixedNumber m else m).
Proof.
  intros Hrand Hnums Hne. unfold median. rewrite Hnums. simpl.
  by apply median_of_agrees.
Qed.

Lemma median_hybrid_agrees_with_sort_witness :
  ∃ m, medianOf (sort [Qc_of_Z 3; Qc_of_Z 1]) = Return m ∧
       median (λ _, 0%Qc) (VArray [VNumber (Fin (Qc_of_Z 3)); VNumber (Fin (Qc_of_Z 1))])
         None = Return m.
Proof.
  destruct (median_hybrid_agrees_with_sort (λ _, 0%Qc)
              (VArray [VNumber (Fin (Qc_of_Z 3)); VNumber (Fin (Qc_of_Z 1))]) None
              [Qc_of_Z 3; Qc_of_Z 1]) as (m & Hm & Hmed).
  - intros n. split; [by vm_compute|reflexivity].
  - reflexivity.
  - discriminate.
  - exists m. split; [exact Hm|]. exact Hmed.
Defined.

(** On sixteen zeros and sixteen times 1e-11 the median by full sort is
    5e-12; the hybrid median, on the selection branch, is the rounded 0. *)
Lemma median_large_even_differs_from_sort :
  let arr := VArray ((λ q, VNumber (Fin q)) <$> zeros_and_tinies) in
  extractNumbers arr None = Return zeros_and_tinies ∧
  len zeros_and_tinies = 32 ∧
  medianOf (sort zeros_and_tinies) = Return (Q2Qc (1 # 200000000000)) ∧
  median (λ _, 0%Qc) arr None = Return 0%Qc ∧
  median (λ _, 0%Qc) arr None ≠ medianOf (sort zeros_and_tinies).
Proof.
  assert (medianOf (sort zeros_and_tinies) = Return (Q2Qc (1 # 200000000000))) as Hsort.
  { qc_eval. }
  assert (median (λ _, 0%Qc) (VArray ((λ q, VNumber (Fin q)) <$> zeros_and_tinies)) None
          = Return 0%Qc) as Hmed.
  { qc_eval. }
  cbv zeta. split; [reflexivity|]. split; [reflexivity|]. split; [exact Hsort|].
  split; [exact Hmed|]. intros H. rewrite Hmed, Hsort in H. discriminate H.
Qed.

(** ** mode *)

Lemma frequency_snoc v p n :
  frequency v (p ++ [n]) = (frequency v p + if decide (n = v) then 1 else 0)%nat.
Proof.
  unfold frequency. rewrite filter_app, length_app. f_equal.
  rewrite filter_cons, filter_nil. by destruct (decide (n = v)).
Qed.

Lemma frequency_pos v nums : (0 < frequency v nums)%nat ↔ v ∈ nums.
Proof.
  unfold frequency. split.
  - intros Hpos. destruct (filter (λ x, x = v) nums) as [|x l] eqn:Hf; [simpl in Hpos; lia|].
    assert (x ∈ filter (λ x, x = v) nums) as Hx by (rewrite Hf; left).
    apply list_elem_of_filter in Hx as [-> Hx]. done.
  - intros Hin.
    assert (v ∈ filter (λ x, x = v) nums) as Hv by (by apply list_elem_of_filter).
    destruct (filter (λ x, x = v) nums); [by apply not_elem_of_nil in Hv|simpl; lia].
Qed.

Lemma map_get_set_eq n c freq : map_get n (map_set n c freq) = Some c.
Proof.
  induction freq as [|[k c'] rest IH]; simpl.
  - by rewrite decide_True.
  - destruct (decide (k = n)) as [->|Hne]; simpl.
    + by rewrite decide_True.
    + by rewrite decide_False.
Qed.

Lemma map_get_set_ne n m c freq : n ≠ m → map_get m (map_set n c freq) = map_get m freq.
Proof.
  intros Hnm. induction freq as [|[k c'] rest IH]; simpl.
  - by rewrite decide_False.
  - destruct (decide (k = n)) as [->|Hne]; simpl.
    + by rewrite !decide_False.
    + destruct (decide (k = m)); done.
Qed.

Lemma map_set_keys n c freq k : k ∈ (map_set n c freq).*1 ↔ k = n ∨ k ∈ freq.*1.
Proof.
  induction freq as [|[k' c'] rest IH]; simpl.
  - rewrite list_elem_of_singleton. split; [auto|]. intros [?|H]; [done|].
    by apply not_elem_of_nil in H.
  - destruct (decide (k' = n)) as [->|Hne]; simpl; rewrite !elem_of_cons.
    + tauto.
    + rewrite IH. tauto.
Qed.

Lemma map_set_NoDup n c freq : NoDup freq.*1 → NoDup (map_set n c freq).*1.
Proof.
  induction freq as [|[k c'] rest IH]; simpl.
  - intros _. apply NoDup_singleton.
  - rewrite NoDup_cons. intros [Hk Hrest].
    destruct (decide (k = n)) as [->|Hne]; simpl; apply NoDup_cons.
    + done.
    + split; [|by apply IH]. rewrite map_set_keys. intros [?|?]; done.
Qed.

Lemma map_get_Some v c freq :
  NoDup freq.*1 → map_get v freq = Some c ↔ (v, c) ∈ freq.
Proof.
  induction freq as [|[k c'] rest IH]; simpl.
  - intros _. split; [done|]. intros H. by apply not_elem_of_nil in H.
  - rewrite NoDup_cons. intros [Hk Hrest]. rewrite elem_of_cons.
    destruct (decide (k = v)) as [->|Hne].
    + split; [intros [= ->]; by left|].
      intros [[= ->]|Hin]; [done|].
      exfalso. apply Hk. by apply (list_elem_of_fmap_2 fst) in Hin.
    + rewrite IH by done. split; [by right|]. intros [[= -> ->]|?]; done.
Qed.

Lemma mode_count_inv p st n :
  mode_inv p st → mode_inv (p ++ [n]) (mode_count st n).
Proof.
  intros [Hkeys Hget Hmax Hstart Hatt]. unfold mode_count.
  assert (default 0%nat (map_get n st.1) + 1 = frequency n (p ++ [n]))%nat as Hcc.
  { rewrite frequency_snoc, decide_True by done. rewrite Hget.
    destruct (decide (frequency n p = 0%nat)) as [->|]; done. }
  rewrite Hcc. split; simpl.
  - by apply map_set_NoDup.
  - intros v. destruct (decide (n = v)) as [->|Hne].
    + rewrite map_get_set_eq, decide_False; [done|].
      rewrite frequency_snoc, decide_True by done. lia.
    + rewrite map_get_set_ne by done. rewrite Hget.
      rewrite frequency_snoc, (decide_False (P := n = v)) by done.
      by rewrite Nat.add_0_r.
  - intros v. pose proof (Hmax v) as Hv.
    destruct (decide (n = v)) as [->|Hne].
    + destruct (decide (st.2 < frequency v (p ++ [v]))%nat); lia.
    + rewrite (frequency_snoc v), decide_False by done.
      destruct (decide (st.2 < frequency n (p ++ [n]))%nat); lia.
  - intros H. by destruct p.
  - intros _. destruct (decide (st.2 < frequency n (p ++ [n]))%nat) as [Hlt|Hge].
    + by exists n.
    + destruct p as [|x p'].
      * rewrite Hstart in Hge by done.
        rewrite frequency_snoc, decide_True in Hge by done. lia.
      * destruct Hatt as [v Hv]; [done|]. exists v.
        rewrite frequency_snoc. destruct (decide (n = v)) as [->|Hne]; [|lia].
        rewrite frequency_snoc, decide_True in Hge by done. lia.
Qed.

Lemma mode_loop_inv rest p st :
  mode_inv p st → mode_inv (p ++ rest) (foldl mode_count st rest).
Proof.
  revert p st. induction rest as [|n rest IH]; intros p st Hinv; simpl.
  - by rewrite app_nil_r.
  - rewrite cons_middle, app_assoc. apply IH. by apply mode_count_inv.
Qed.

Lemma mode_of_spec nums :
  StronglySorted Qcle (mode_of nums) ∧ NoDup (mode_of nums) ∧
  ∀ v, v ∈ mode_of nums ↔ v ∈ nums ∧ ∀ w, (frequency w nums ≤ frequency v nums)%nat.
Proof.
  unfold mode_of. destruct (decide (length nums = 0%nat)) as [Hz|Hnz].
  { destruct nums; [|done]. split; [constructor|]. split; [constructor|].
    intros v. split; [intros H|intros [H _]]; by apply not_elem_of_nil in H. }
  assert (mode_inv nums (foldl mode_count ([], 0%nat) nums)) as Hinv.
  { apply (mode_loop_inv nums []).
    split; simpl; intros; first [done | constructor | (unfold frequency; simpl; lia)]. }
  destruct Hinv as [Hkeys Hget Hmax _ Hatt].
  set (st := foldl mode_count ([], 0%nat) nums) in *.
  destruct Hatt as [v0 Hv0]; [by destruct nums|].
  split; [apply sort_sorted|]. split.
  - rewrite sort_perm.
    eapply sublist_NoDup; [exact Hkeys|apply fmap_sublist, sublist_filter].
  - intros v. rewrite sort_perm, list_elem_of_fmap. split.
    + intros ([k c] & -> & [Hc Hin]%list_elem_of_filter). simpl in *.
      apply map_get_Some in Hin; [|done]. rewrite Hget in Hin.
      destruct (decide (frequency k nums = 0%nat)); [done|].
      injection Hin as Hin. split; [apply frequency_pos; lia|].
      intros w. pose proof (Hmax w). lia.
    + intros [Hin Hall]. exists (v, frequency v nums). split; [done|].
      apply frequency_pos in Hin.
      apply list_elem_of_filter. split.
      * simpl. pose proof (Hall v0). pose proof (Hmax v). lia.
      * apply map_get_Some; [done|]. rewrite Hget, decide_False; [done|lia].
Qed.

(** C6.  The sequence [mode] returns is sorted ascending and has no
    duplicates; its values are the values of the extracted sequence whose
    frequency there is the greatest any value has; on the empty sequence
    it is empty. *)
Theorem mode_sorted_distinct_most_frequent arr key nums :
  extractNumbers arr key = Return nums →
  ∃ res, mode arr key = Return res ∧
         StronglySorted Qcle res ∧ NoDup res ∧
         (∀ v, v ∈ res ↔ v ∈ nums ∧ ∀ w, (frequency w nums ≤ frequency v nums)%nat) ∧
         (nums = [] → res = []).
Proof.
  intros Hnums. exists (mode_of nums). unfold mode. rewrite Hnums. simpl.
  destruct (mode_of_spec nums) as (Hsorted & Hnodup & Hiff).
  split; [done|]. split; [done|]. split; [done|]. split; [done|].
  by intros ->.
Qed.

Lemma mode_sorted_distinct_most_frequent_witness :
  ∃ res, mode (VArray ((λ z, VNumber (Fin (Qc_of_Z z))) <$> [30; 20; 10; 20; 30])) None
         = Return res ∧ NoDup res ∧ Qc_of_Z 20 ∈ res.
Proof.
  assert (extractNumbers
            (VArray ((λ z, VNumber (Fin (Qc_of_Z z))) <$> [30; 20; 10; 20; 30])) None
          = Return (Qc_of_Z <$> [30; 20; 10; 20; 30])) as Hnums by reflexivity.
  destruct (mode_sorted_distinct_most_frequent _ _ _ Hnums)
    as (res & Hres & _ & Hnodup & Hiff & _).
  exists res. split; [exact Hres|]. split; [exact Hnodup|].
  apply Hiff. split.
  - right. left.
  - intros w. unfold frequency. simpl. rewrite !filter_cons, !filter_nil.
    repeat case_decide; simplify_eq; simpl; lia.
Defined.

(** ** Rounding *)

Lemma Qfloor_unique (x : Q) (n : Z) :
  (inject_Z n <= x)%Q → (x < inject_Z (n + 1))%Q → Qfloor x = n.
Proof.
  intros Hle Hlt.
  pose proof (Qfloor_le x) as Hfl. pose proof (Qlt_floor x) as Hfu.
  assert (n < Qfloor x + 1).
  { rewrite Zlt_Qlt. eapply Qle_lt_trans; [exact Hle|exact Hfu]. }
  assert (Qfloor x < n + 1).
  { rewrite Zlt_Qlt. eapply Qle_lt_trans; [exact Hfl|exact Hlt]. }
  lia.
Qed.

Lemma toFixedNumber_zero : toFixedNumber 0%Qc = 0%Qc.
Proof. apply Qc_is_canon. reflexivity. Qed.


(** ** The ranks percentile reads *)

Lemma pos_nonzero (f : Qc) : (0 < f)%Qc → f ≠ 0%Qc.
Proof. intros Hf H. rewrite H in Hf. by apply Qclt_not_eq in Hf. Qed.

Lemma div_lower (a m f : Qc) : (0 < f)%Qc → (f * m ≤ a)%Qc → (m ≤ a / f)%Qc.
Proof.
  intros Hf H. apply (Qcmult_le_mono_pos_r _ _ f Hf).
  replace (a / f * f)%Qc with a by (field; by apply pos_nonzero).
  by rewrite Qcmult_comm.
Qed.

Lemma div_upper (a M f : Qc) : (0 < f)%Qc → (a ≤ f * M)%Qc → (a / f ≤ M)%Qc.
Proof.
  intros Hf H. apply (Qcmult_le_mono_pos_r _ _ f Hf).
  replace (a / f * f)%Qc with a by (field; by apply pos_nonzero).
  by rewrite (Qcmult_comm M).
Qed.

Lemma divisor_pos (d : Z) : ¬ d ≤ 0 → (0 < Qc_of_Z d)%Qc.
Proof. intros Hd. rewrite <- Z2Qc_inj_0. apply (proj1 (Z2Qc_inj_lt _ _)). lia. Qed.

Lemma Math_floor_bounds x a b :
  (Qc_of_Z a ≤ x)%Qc → (x ≤ Qc_of_Z b)%Qc → a ≤ Math_floor x ≤ b.
Proof.
  intros Ha Hb. unfold Math_floor. split.
  - rewrite <- (Qfloor_Z a). by apply Qfloor_resp_le.
  - rewrite <- (Qfloor_Z b). by apply Qfloor_resp_le.
Qed.

Lemma Math_ceil_bounds x a b :
  (Qc_of_Z a ≤ x)%Qc → (x ≤ Qc_of_Z b)%Qc → a ≤ Math_ceil x ≤ b.
Proof.
  intros Ha Hb. unfold Math_ceil. split.
  - rewrite <- (Qceiling_Z a). by apply Qceiling_resp_le.
  - rewrite <- (Qceiling_Z b). by apply Qceiling_resp_le.
Qed.

Lemma index_bounds (p : Qc) (n : Z) :
  (0 ≤ p)%Qc → (p ≤ Qc_of_Z 100)%Qc → 0 ≤ n →
  (Qc_of_Z 0 ≤ p / Qc_of_Z 100 * Qc_of_Z n)%Qc ∧
  (p / Qc_of_Z 100 * Qc_of_Z n ≤ Qc_of_Z n)%Qc.
Proof.
  intros Hp0 Hp100 Hn.
  assert (0 < Qc_of_Z 100)%Qc as H100 by (apply divisor_pos; lia).
  assert (0 ≤ Qc_of_Z n)%Qc as Hn'.
  { rewrite <- Z2Qc_inj_0. by apply (proj1 (Z2Qc_inj_le _ _)). }
  assert (0 ≤ p / Qc_of_Z 100)%Qc as Hq0.
  { apply div_lower; [done|]. by rewrite Qcmult_0_r. }
  assert (p / Qc_of_Z 100 ≤ 1)%Qc as Hq1.
  { apply div_upper; [done|]. by rewrite Qcmult_1_r. }
  rewrite Z2Qc_inj_0. split.
  - by apply Qcmult_nonneg_nonneg.
  - rewrite <- (Qcmult_1_l (Qc_of_Z n)) at 2. by apply Qcmult_le_mono_nonneg_r.
Qed.

Lemma nonempty_len nums : nums ≠ [] → 0 < len nums.
Proof. intros Hne. unfold len. destruct nums; [done|simpl; lia]. Qed.

Lemma sorted_get_le l i j x y :
  StronglySorted Qcle l → i ≤ j → get l i = Some x → get l j = Some y → (x ≤ y)%Qc.
Proof.
  intros Hs Hij [Hi Hx]%get_Some [Hj Hy]%get_Some.
  assert (Z.to_nat i ≤ Z.to_nat j)%nat as Hle by lia.
  revert Hx Hy Hle. generalize (Z.to_nat i) (Z.to_nat j). clear i j Hij Hi Hj.
  induction Hs as [|z l Hs IH Hz]; intros i j Hx Hy Hle; [done|].
  destruct i as [|i], j as [|j]; simpl in *.
  - assert (x = y) as -> by congruence. done.
  - injection Hx as ->. rewrite Forall_forall in Hz. apply Hz.
    by eapply list_elem_of_lookup_2.
  - lia.
  - apply (IH i j); [done|done|lia].
Qed.

Lemma floor_le_ceil x : Math_floor x ≤ Math_ceil x.
Proof.
  unfold Math_floor, Math_ceil. rewrite Zle_Qle.
  eapply Qle_trans; [apply Qfloor_le|apply Qle_ceiling].
Qed.

(** For [p] from 0 to 100 the two ranks percentile computes lie inside
    the sorted copy: the values read there are values of the sequence,
    the lower one at most the upper one, and the weight is in [[0, 1)]. *)
Lemma percentile_ranks arr k nums p :
  extractNumbers arr k = Return nums →
  nums ≠ [] →
  (0 ≤ p)%Qc → (p ≤ Qc_of_Z 100)%Qc →
  let sorted := sort nums in
  let index := (p / Qc_of_Z 100 * Qc_of_Z (len sorted - 1))%Qc in
  let weight := (index - Qc_of_Z (Math_floor index))%Qc in
  ∃ lowerValue upperValue,
    get sorted (Math_floor index) = Some lowerValue ∧
    get sorted (Math_ceil index) = Some upperValue ∧
    lowerValue ∈ nums ∧ upperValue ∈ nums ∧ (lowerValue ≤ upperValue)%Qc ∧
    (0 ≤ weight)%Qc ∧ (weight < 1)%Qc ∧
    percentile arr (Fin p) k =
      Return (if decide (p = 0%Qc) then Math_min nums
              else if decide (p = Qc_of_Z 100) then Math_max nums
              else if decide (Math_floor index = Math_ceil index) then Fin lowerValue
              else Fin (toFixedNumber
                          (lowerValue * (1 - weight) + upperValue * weight)%Qc)).
Proof.
  intros Hnums Hne Hp0 Hp100 sorted index weight.
  pose proof (nonempty_len _ Hne) as Hlen.
  assert (len sorted = len nums) as Hsl by apply sort_length.
  destruct (index_bounds p (len sorted - 1) Hp0 Hp100 ltac:(lia)) as [Hi0 Hi1].
  fold index in Hi0, Hi1.
  pose proof (Math_floor_bounds index _ _ Hi0 Hi1) as Hfl.
  pose proof (Math_ceil_bounds index _ _ Hi0 Hi1) as Hce.
  destruct (get_in_range sorted (Math_floor index)) as [lv Hlv]; [lia|].
  destruct (get_in_range sorted (Math_ceil index)) as [uv Huv]; [lia|].
  exists lv, uv. split; [done|]. split; [done|].
  split; [rewrite <- (sort_perm nums); by eapply get_elem_of|].
  split; [rewrite <- (sort_perm nums); by eapply get_elem_of|].
  split.
  { by eapply (sorted_get_le sorted _ _ lv uv (sort_sorted nums) (floor_le_ceil index)). }
  assert (Qc_of_Z (Math_floor index) ≤ index)%Qc as Hle by apply Qfloor_le.
  assert (index < Qc_of_Z (Math_floor index + 1))%Qc as Hlt by apply Qlt_floor.
  rewrite Z2Qc_inj_add, Z2Qc_inj_1 in Hlt.
  split; [by apply (proj1 (Qcle_minus_iff _ _))|]. split.
  { unfold weight. apply (Qcplus_lt_mono_r _ _ (Qc_of_Z (Math_floor index))).
    replace (index - Qc_of_Z (Math_floor index) + Qc_of_Z (Math_floor index))%Qc
      with index by ring.
    by rewrite (Qcplus_comm 1). }
  unfold percentile.
  assert (number_ltb (Fin p) (Fin 0%Qc) || number_ltb (Fin (Qc_of_Z 100)) (Fin p) = false)
    as ->.
  { apply orb_false_iff. split; apply bool_decide_eq_false; by apply Qcle_not_lt. }
  rewrite Hnums. simpl. rewrite decide_False by (unfold len in Hlen; lia).
  destruct (decide (p = 0%Qc)); [done|].
  destruct (decide (p = Qc_of_Z 100)); [done|].
  cbv zeta. fold sorted. fold index. rewrite Hlv.
  destruct (decide (Math_floor index = Math_ceil index)); [done|].
  by rewrite Huv.
Qed.

(** ** What the calculators round *)



(** ** The store *)

Module StoreFacts.
Import Store.

Lemma keeps_ret σ0 {A} (a : A) (Q : A → Prop) : Q a → keeps σ0 (mret a) Q.
Proof. intros HQ σ Hσ. split; [done|]. by intros a' [= <-]. Qed.

Lemma keeps_lift σ0 {A} (o : outcome A) : keeps σ0 (lift o) (λ _, True).
Proof. intros σ Hσ. done. Qed.

Lemma keeps_weaken σ0 {A} (m : M A) (P Q : A → Prop) :
  keeps σ0 m P → (∀ a, P a → Q a) → keeps σ0 m Q.
Proof.
  intros Hm HPQ σ Hσ. destruct (Hm σ Hσ) as [Hsub HP]. split; [done|]. eauto.
Qed.

Lemma keeps_bind σ0 {A B} (m : M A) (k : A → M B) (P : A → Prop) (Q : B → Prop) :
  keeps σ0 m P → (∀ a, P a → keeps σ0 (k a) Q) → keeps σ0 (m ≫= k) Q.
Proof.
  intros Hm Hk σ Hσ. destruct (Hm σ Hσ) as [Hsub HP].
  unfold mbind, M_bind. destruct (m σ) as [[a|e|] σ'] eqn:Hrun; simpl in *.
  - apply Hk; [by apply HP|done].
  - done.
  - done.
Qed.

Lemma keeps_alloc σ0 vs : keeps σ0 (alloc vs) (unknown_to σ0).
Proof.
  intros σ Hσ. unfold alloc. simpl.
  assert (unknown_to σ0 (fresh (dom σ))) as Hfresh.
  { unfold unknown_to. destruct (σ0 !! fresh (dom σ)) as [x|] eqn:Hx; [|done].
    exfalso. apply (is_fresh (dom σ)). apply elem_of_dom. exists x.
    by eapply lookup_weaken. }
  split; [by apply insert_subseteq_r|]. by intros l [= <-].
Qed.

Lemma keeps_read σ0 l : keeps σ0 (read l) (λ _, True).
Proof. intros σ Hσ. done. Qed.

Lemma keeps_write σ0 l vs : unknown_to σ0 l → keeps σ0 (write l vs) (λ _, True).
Proof. intros Hl σ Hσ. split; [|done]. simpl. by apply insert_subseteq_r. Qed.

Lemma keeps_read_numbers σ0 l : keeps σ0 (read_numbers l) (λ _, True).
Proof.
  eapply keeps_bind; [apply keeps_read|]. intros vs _. apply keeps_lift.
Qed.

Lemma keeps_write_numbers σ0 l nums :
  unknown_to σ0 l → keeps σ0 (write_numbers l nums) (λ _, True).
Proof. apply keeps_write. Qed.

Lemma keeps_push σ0 l v : unknown_to σ0 l → keeps σ0 (push l v) (λ _, True).
Proof.
  intros Hl. eapply keeps_bind; [apply keeps_read|]. intros vs _. by apply keeps_write.
Qed.

Lemma keeps_copy σ0 l : keeps σ0 (copy l) (unknown_to σ0).
Proof.
  eapply keeps_bind; [apply keeps_read|]. intros vs _. apply keeps_alloc.
Qed.

Lemma keeps_sort_in_place σ0 l :
  unknown_to σ0 l → keeps σ0 (sort_in_place l) (λ _, True).
Proof.
  intros Hl. eapply keeps_bind; [apply keeps_read_numbers|].
  intros nums _. by apply keeps_write_numbers.
Qed.

Lemma keeps_extract_loop σ0 n mapped numbers i :
  unknown_to σ0 numbers → keeps σ0 (extract_loop n mapped numbers i) (λ _, True).
Proof.
  intros Hl. revert i. induction n as [|n IH]; intros i; simpl.
  { by apply keeps_ret. }
  eapply keeps_bind; [apply keeps_read|]. intros vs _.
  eapply keeps_bind; [apply keeps_lift|]. intros v _.
  destruct v as [| | |[]| | |]; try apply keeps_lift; try apply IH.
  eapply keeps_bind; [by apply keeps_push|]. intros _ _. apply IH.
Qed.

Lemma keeps_extractNumbers σ0 arr key :
  keeps σ0 (extractNumbers arr key) (unknown_to σ0).
Proof.
  unfold extractNumbers.
  eapply keeps_bind; [apply keeps_read|]. intros elems _.
  destruct (decide (length elems = 0%nat)); [apply keeps_alloc|].
  eapply (keeps_bind _ _ _ (λ _, True)).
  { destruct (truthy key) as [k|]; [|by apply keeps_ret].
    eapply keeps_bind; [apply keeps_lift|]. intros vs _.
    eapply keeps_weaken; [apply keeps_alloc|done]. }
  intros mapped _.
  eapply keeps_bind; [apply keeps_alloc|]. intros numbers Hnumbers.
  eapply keeps_bind; [apply keeps_read|]. intros vs _.
  eapply keeps_bind; [by apply keeps_extract_loop|]. intros _ _.
  by apply keeps_ret.
Qed.

Lemma keeps_quickselect σ0 rand arr k left right calls :
  unknown_to σ0 arr →
  keeps σ0 (quickselect rand arr k left right calls) (λ _, True).
Proof.
  intros Hl. unfold quickselect.
  eapply keeps_bind; [apply keeps_read_numbers|]. intros a _.
  match goal with
  | |- context [match ?q with QsFound _ _ _ => _ | _ => _ end] =>
      destruct q as [v a' c|[v|] a' c| |]
  end;
    try apply keeps_lift;
    (eapply keeps_bind; [by apply keeps_write_numbers|]; intros _ _; by apply keeps_ret).
Qed.

Lemma keeps_push_all σ0 l nums :
  unknown_to σ0 l → keeps σ0 (push_all l nums) (λ _, True).
Proof.
  intros Hl. induction nums as [|q rest IH]; simpl.
  { by apply keeps_ret. }
  eapply keeps_bind; [by apply keeps_push|]. intros _ _. apply IH.
Qed.

(** Every step of a calculator is a read, an allocation, or a write to an
    array the call allocated itself. *)
Ltac keeps_step :=
  first
    [ apply keeps_lift
    | apply keeps_ret; done
    | (eapply keeps_weaken; [apply keeps_alloc|done])
    | (eapply keeps_bind; [apply keeps_extractNumbers|]; intros ? ?)
    | (eapply keeps_bind; [apply keeps_read_numbers|]; intros ? _)
    | (eapply keeps_bind; [apply keeps_copy|]; intros ? ?)
    | (eapply keeps_bind; [apply keeps_alloc|]; intros ? ?)
    | (eapply keeps_bind; [by apply keeps_sort_in_place|]; intros _ _)
    | (eapply keeps_bind; [by apply keeps_quickselect|]; intros ? _)
    | (eapply keeps_bind; [by apply keeps_push_all|]; intros _ _)
    | (eapply keeps_bind; [apply keeps_lift|]; intros ? _)
    | case_decide ].

Lemma keeps_mean σ0 arr key : keeps σ0 (mean arr key) (λ _, True).
Proof. unfold mean. repeat keeps_step. Qed.

Lemma keeps_median σ0 rand arr key : keeps σ0 (median rand arr key) (λ _, True).
Proof. unfold median. repeat keeps_step. Qed.

Lemma keeps_mode σ0 arr key : keeps σ0 (mode arr key) (λ _, True).
Proof. unfold mode. repeat keeps_step. Qed.

Lemma keeps_range σ0 arr key : keeps σ0 (range arr key) (λ _, True).
Proof.
  unfold range. do 2 keeps_step.
  match goal with |- context [match ?ns with [] => _ | _ => _ end] => destruct ns end;
    keeps_step.
Qed.

Lemma keeps_variance σ0 arr options : keeps σ0 (variance arr options) (λ _, True).
Proof. unfold variance. repeat keeps_step. Qed.

Lemma keeps_stdev σ0 Math_sqrt arr options :
  keeps σ0 (stdev Math_sqrt arr options) (λ _, True).
Proof. unfold stdev. repeat keeps_step. Qed.

Lemma keeps_percentile σ0 arr p key : keeps σ0 (percentile arr p key) (λ _, True).
Proof.
  unfold percentile. destruct (_ || _); [apply keeps_lift|].
  do 2 keeps_step. case_decide; [keeps_step|].
  destruct p; repeat keeps_step.
Qed.

(** ** Running a computation on a given store *)

Lemma run_bind {A B} (m : M A) (k : A → M B) σ :
  (m ≫= k) σ =
    match m σ with
    | (Return a, σ') => k a σ'
    | (Throw e, σ') => (Throw e, σ')
    | (OutOfBounds, σ') => (OutOfBounds, σ')
    end.
Proof. reflexivity. Qed.

Lemma run_bind_return {A B} (m : M A) (k : A → M B) σ a σ' :
  m σ = (Return a, σ') → (m ≫= k) σ = k a σ'.
Proof. intros H. by rewrite run_bind, H. Qed.

Lemma run_bind_out {A B} (m : M A) (k : A → M B) σ :
  (m σ).1 = OutOfBounds → ((m ≫= k) σ).1 = OutOfBounds.
Proof. rewrite run_bind. by destruct (m σ) as [[] ?]. Qed.

Lemma fresh_lookup (σ : store) : σ !! fresh (dom σ) = None.
Proof. apply not_elem_of_dom, is_fresh. Qed.

Lemma numbers_of_values nums : numbers_of (values_of nums) = Return nums.
Proof.
  unfold numbers_of, values_of. induction nums as [|q rest IH]; [done|].
  simpl in *. destruct (mapM finite _) as [l|] eqn:Hl; [|done].
  simpl in *. by injection IH as ->.
Qed.

Lemma values_of_snoc nums q : values_of (nums ++ [q]) = values_of nums ++ [VNumber (Fin q)].
Proof. unfold values_of. by rewrite fmap_app. Qed.

Lemma run_read σ l vs : σ !! l = Some vs → read l σ = (Return vs, σ).
Proof. intros H. unfold read. by rewrite H. Qed.

Lemma run_read_numbers σ l nums :
  σ !! l = Some (values_of nums) → read_numbers l σ = (Return nums, σ).
Proof.
  intros H. unfold read_numbers. rewrite (run_bind_return _ _ _ _ _ (run_read _ _ _ H)).
  unfold lift. by rewrite numbers_of_values.
Qed.

Lemma run_push σ l vs v :
  σ !! l = Some vs → push l v σ = (Return (), <[l := vs ++ [v]]> σ).
Proof.
  intros H. unfold push. by rewrite (run_bind_return _ _ _ _ _ (run_read _ _ _ H)).
Qed.

Lemma run_copy σ l vs :
  σ !! l = Some vs → copy l σ = (Return (fresh (dom σ)), <[fresh (dom σ) := vs]> σ).
Proof.
  intros H. unfold copy. by rewrite (run_bind_return _ _ _ _ _ (run_read _ _ _ H)).
Qed.

Lemma run_sort_in_place σ l nums :
  σ !! l = Some (values_of nums) →
  sort_in_place l σ = (Return (), <[l := values_of (sort nums)]> σ).
Proof.
  intros H. unfold sort_in_place.
  by rewrite (run_bind_return _ _ _ _ _ (run_read_numbers _ _ _ H)).
Qed.

Lemma run_push_all σ l nums more :
  σ !! l = Some (values_of nums) →
  push_all l more σ = (Return (), <[l := values_of (nums ++ more)]> σ).
Proof.
  revert σ nums. induction more as [|q rest IH]; intros σ nums H; simpl.
  - rewrite app_nil_r, insert_id; done.
  - rewrite (run_bind_return _ _ _ _ _ (run_push _ _ _ _ H)).
    rewrite (IH _ (nums ++ [q])).
    + by rewrite insert_insert_eq, <- app_assoc.
    + by rewrite lookup_insert_eq, values_of_snoc.
Qed.

End StoreFacts.

(** C8.  Whatever the store, the arguments and the outcome, a call of a
    calculator leaves every array the caller holds as it was, the input
    collection among them: the arrays it sorts, pushes to or partitions
    are arrays it allocated itself. *)
Theorem calculators_leave_input_unchanged
    (σ : gmap Store.loc (list value)) rand Math_sqrt arr key options p :
  let unchanged (σ' : gmap Store.loc (list value)) :=
    ∀ l elems, σ !! l = Some elems → σ' !! l = Some elems in
  unchanged (Store.mean arr key σ).2 ∧
  unchanged (Store.median rand arr key σ).2 ∧
  unchanged (Store.mode arr key σ).2 ∧
  unchanged (Store.range arr key σ).2 ∧
  unchanged (Store.variance arr options σ).2 ∧
  unchanged (Store.stdev Math_sqrt arr options σ).2 ∧
  unchanged (Store.percentile arr p key σ).2.
Proof.
  intros unchanged.
  assert (∀ σ', σ ⊆ σ' → unchanged σ') as Hsub.
  { intros σ' Hσ' l elems Hl. by eapply lookup_weaken. }
  repeat split; apply Hsub.
  - by apply (StoreFacts.keeps_mean σ arr key σ).
  - by apply (StoreFacts.keeps_median σ rand arr key σ).
  - by apply (StoreFacts.keeps_mode σ arr key σ).
  - by apply (StoreFacts.keeps_range σ arr key σ).
  - by apply (StoreFacts.keeps_variance σ arr options σ).
  - by apply (StoreFacts.keeps_stdev σ Math_sqrt arr options σ).
  - by apply (StoreFacts.keeps_percentile σ arr p key σ).
Qed.

(** ** The calculators on a store return what the calculators return *)

Lemma drop_lookup_cons {A} (l : list A) i x : l !! i = Some x → drop i l = x :: drop (S i) l.
Proof.
  revert i. induction l as [|y l IH]; intros [|i] H; simpl in *; try done.
  - by injection H as ->.
  - by apply IH.
Qed.

Lemma store_extract_loop_agrees n (σ : gmap Store.loc (list value)) mapped numbers vs i acc :
  mapped ≠ numbers →
  σ !! mapped = Some vs → σ !! numbers = Some (Store.values_of acc) →
  (i + n)%nat = length vs →
  match extract_loop (drop i vs) i acc with
  | Return nums =>
      Store.extract_loop n mapped numbers i σ
      = (Return (), <[numbers := Store.values_of nums]> σ)
  | Throw e => ∃ σ', Store.extract_loop n mapped numbers i σ = (Throw e, σ')
  | OutOfBounds => False
  end.
Proof.
  intros Hne. revert σ i acc. induction n as [|n IH]; intros σ i acc Hm Hn Hlen.
  { rewrite drop_ge by lia. simpl. by rewrite insert_id. }
  destruct (lookup_lt_is_Some_2 vs i ltac:(lia)) as [v Hv].
  rewrite (drop_lookup_cons _ _ _ Hv). simpl.
  rewrite (StoreFacts.run_bind_return _ _ _ _ _ (StoreFacts.run_read _ _ _ Hm)).
  rewrite StoreFacts.run_bind. unfold Store.lift at 1. rewrite Hv. simpl.
  destruct v as [| | |[q| | |]| | |]; try (by eexists).
  - apply IH; [done|done|lia].
  - apply IH; [done|done|lia].
  - rewrite (StoreFacts.run_bind_return _ _ _ _ _ (StoreFacts.run_push _ _ _ _ Hn)).
    specialize (IH (<[numbers := Store.values_of acc ++ [VNumber (Fin q)]]> σ)
                  (S i) (acc ++ [q])).
    destruct (extract_loop (drop (S i) vs) (S i) (acc ++ [q])) as [nums|e|].
    + rewrite IH; [by rewrite insert_insert_eq| | |lia].
      * by rewrite lookup_insert_ne.
      * by rewrite lookup_insert_eq, StoreFacts.values_of_snoc.
    + apply IH; [|by rewrite lookup_insert_eq, StoreFacts.values_of_snoc|lia].
      by rewrite lookup_insert_ne.
    + apply IH; [|by rewrite lookup_insert_eq, StoreFacts.values_of_snoc|lia].
      by rewrite lookup_insert_ne.
Qed.

Lemma fresh_ne (σ : gmap Store.loc (list value)) l vs :
  σ !! l = Some vs → l ≠ fresh (dom σ).
Proof. intros Hl ->. by rewrite StoreFacts.fresh_lookup in Hl. Qed.

Lemma store_extract_from_agrees (σ : gmap Store.loc (list value)) mapped vs :
  σ !! mapped = Some vs →
  match extract_loop vs 0 [] with
  | Return nums =>
      ∃ l σ', (numbers ← Store.alloc [];
               vs' ← Store.read mapped;
               _ ← Store.extract_loop (length vs') mapped numbers 0;
               mret numbers) σ = (Return l, σ') ∧
              σ' !! l = Some (Store.values_of nums)
  | Throw e =>
      ∃ σ', (numbers ← Store.alloc [];
             vs' ← Store.read mapped;
             _ ← Store.extract_loop (length vs') mapped numbers 0;
             mret numbers) σ = (Throw e, σ')
  | OutOfBounds => False
  end.
Proof.
  intros Hm. rewrite StoreFacts.run_bind. unfold Store.alloc at 1. simpl.
  set (numbers := fresh (dom σ)). set (σ1 := <[numbers := []]> σ).
  assert (mapped ≠ numbers) as Hne by (by eapply fresh_ne).
  assert (σ1 !! mapped = Some vs) as Hm1 by (by unfold σ1; rewrite lookup_insert_ne).
  assert (σ1 !! numbers = Some (Store.values_of [])) as Hn1
    by (by unfold σ1; rewrite lookup_insert_eq).
  rewrite (StoreFacts.run_bind_return _ _ _ _ _ (StoreFacts.run_read _ _ _ Hm1)).
  rewrite StoreFacts.run_bind.
  pose proof (store_extract_loop_agrees (length vs) σ1 mapped numbers vs 0 [] Hne Hm1 Hn1
                ltac:(lia)) as Hloop.
  rewrite drop_0 in Hloop.
  destruct (extract_loop vs 0 []) as [nums|e|]; [| |done].
  - rewrite Hloop. eexists _, _. split; [reflexivity|]. by rewrite lookup_insert_eq.
  - destruct Hloop as [σ' ->]. by eexists.
Qed.

Lemma store_extractNumbers_agrees (σ : gmap Store.loc (list value)) arr elems key :
  σ !! arr = Some elems →
  match extractNumbers (VArray elems) key with
  | Return nums =>
      ∃ l σ', Store.extractNumbers arr key σ = (Return l, σ') ∧
              σ' !! l = Some (Store.values_of nums)
  | Throw e => ∃ σ', Store.extractNumbers arr key σ = (Throw e, σ')
  | OutOfBounds => ∃ σ', Store.extractNumbers arr key σ = (OutOfBounds, σ')
  end.
Proof.
  intros Harr. unfold extractNumbers, Store.extractNumbers.
  rewrite (StoreFacts.run_bind_return _ _ _ _ _ (StoreFacts.run_read _ _ _ Harr)).
  destruct (decide (length elems = 0%nat)).
  { eexists _, _. split; [reflexivity|]. by rewrite lookup_insert_eq. }
  destruct (truthy key) as [k|].
  - rewrite StoreFacts.run_bind. rewrite (StoreFacts.run_bind _ _ σ). unfold Store.lift at 1.
    destruct (project k elems) as [vs|e|]; simpl; [|by eexists..].
    set (mapped := fresh (dom σ)).
    pose proof (store_extract_from_agrees (<[mapped := vs]> σ) mapped vs
                  ltac:(by rewrite lookup_insert_eq)) as Hrun.
    destruct (extract_loop vs 0 []) as [nums|e|]; [| |done]; exact Hrun.
  - rewrite StoreFacts.run_bind. simpl.
    pose proof (store_extract_from_agrees σ arr elems Harr) as Hrun.
    destruct (extract_loop elems 0 []) as [nums|e|]; [| |done]; exact Hrun.
Qed.

(** A calculator is the extractor followed by a body that reads the
    extracted array. *)
Lemma store_extract_then {A} (σ : gmap Store.loc (list value)) arr elems key
    (body : Store.loc → list Qc → Store.M A) (f : list Qc → outcome A) :
  σ !! arr = Some elems →
  (∀ σ' l nums, σ' !! l = Some (Store.values_of nums) → (body l nums σ').1 = f nums) →
  ((l ← Store.extractNumbers arr key; nums ← Store.read_numbers l; body l nums) σ).1
  = extractNumbers (VArray elems) key ≫= f.
Proof.
  intros Harr Hbody. pose proof (store_extractNumbers_agrees σ arr elems key Harr) as Hex.
  rewrite StoreFacts.run_bind.
  destruct (extractNumbers (VArray elems) key) as [nums|e|].
  - destruct Hex as (l & σ' & -> & Hl).
    rewrite (StoreFacts.run_bind_return _ _ _ _ _ (StoreFacts.run_read_numbers _ _ _ Hl)).
    by apply Hbody.
  - by destruct Hex as (σ' & ->).
  - by destruct Hex as (σ' & ->).
Qed.

Lemma store_quickselect_agrees (σ : gmap Store.loc (list value)) rand c a k left right calls :
  σ !! c = Some (Store.values_of a) →
  match qs_value (quickselect rand a k left right calls) with
  | Return (v, a', calls') =>
      Store.quickselect rand c k left right calls σ
      = (Return (v, calls'), <[c := Store.values_of a']> σ)
  | Throw _ => False
  | OutOfBounds => (Store.quickselect rand c k left right calls σ).1 = OutOfBounds
  end.
Proof.
  intros Hc. unfold Store.quickselect.
  rewrite (StoreFacts.run_bind_return _ _ _ _ _ (StoreFacts.run_read_numbers _ _ _ Hc)).
  by destruct (quickselect rand a k left right calls) as [v a' c'|[v|] a' c'| |].
Qed.

Lemma store_mean_agrees (σ : gmap Store.loc (list value)) arr elems key :
  σ !! arr = Some elems → (Store.mean arr key σ).1 = mean (VArray elems) key.
Proof.
  intros Harr. apply (store_extract_then σ arr elems key); [done|].
  intros σ' l nums _. by destruct (decide _).
Qed.

Lemma store_range_agrees (σ : gmap Store.loc (list value)) arr elems key :
  σ !! arr = Some elems → (Store.range arr key σ).1 = range (VArray elems) key.
Proof.
  intros Harr. apply (store_extract_then σ arr elems key); [done|].
  intros σ' l nums _. by destruct nums.
Qed.

Lemma store_variance_agrees (σ : gmap Store.loc (list value)) arr elems options :
  σ !! arr = Some elems → (Store.variance arr options σ).1 = variance (VArray elems) options.
Proof.
  intros Harr. apply (store_extract_then σ arr elems (key options)); [done|].
  intros σ' l nums _. simpl. by repeat case_decide.
Qed.

Lemma store_stdev_agrees (σ : gmap Store.loc (list value)) Math_sqrt arr elems options :
  σ !! arr = Some elems →
  (Store.stdev Math_sqrt arr options σ).1 = stdev Math_sqrt (VArray elems) options.
Proof.
  intros Harr. apply (store_extract_then σ arr elems (key options)); [done|].
  intros σ' l nums _. simpl. by repeat case_decide.
Qed.

Lemma store_sorted_copy (σ : gmap Store.loc (list value)) l nums :
  σ !! l = Some (Store.values_of nums) →
  ∃ c σ', (c ← Store.copy l; _ ← Store.sort_in_place c; mret c) σ = (Return c, σ') ∧
          σ' !! c = Some (Store.values_of (sort nums)).
Proof.
  intros Hl. rewrite (StoreFacts.run_bind_return _ _ _ _ _ (StoreFacts.run_copy _ _ _ Hl)).
  set (c := fresh (dom σ)).
  erewrite StoreFacts.run_bind_return;
    [|apply (StoreFacts.run_sort_in_place _ c nums); by rewrite lookup_insert_eq].
  eexists _, _. split; [reflexivity|]. by rewrite lookup_insert_eq.
Qed.

Lemma store_median_agrees (σ : gmap Store.loc (list value)) rand arr elems key :
  σ !! arr = Some elems → (Store.median rand arr key σ).1 = median rand (VArray elems) key.
Proof.
  intros Harr. apply (store_extract_then σ arr elems key); [done|].
  intros σ' l nums Hl. unfold median_of.
  destruct (decide (length nums = 0%nat)); [done|].
  destruct (decide (len nums < THRESHOLD)).
  { rewrite (StoreFacts.run_bind_return _ _ _ _ _ (StoreFacts.run_copy _ _ _ Hl)).
    set (c := fresh (dom σ')).
    erewrite StoreFacts.run_bind_return;
      [|apply (StoreFacts.run_sort_in_place _ c nums); by rewrite lookup_insert_eq].
    erewrite StoreFacts.run_bind_return;
      [|apply (StoreFacts.run_read_numbers _ c (sort nums)); by rewrite lookup_insert_eq].
    done. }
  destruct (decide (len nums mod 2 ≠ 0)).
  - rewrite (StoreFacts.run_bind_return _ _ _ _ _ (StoreFacts.run_copy _ _ _ Hl)).
    set (c := fresh (dom σ')).
    pose proof (store_quickselect_agrees (<[c := Store.values_of nums]> σ') rand c nums
                  (len nums / 2) 0 (len nums - 1) 0 ltac:(by rewrite lookup_insert_eq)) as Hq.
    destruct (qs_value (quickselect rand nums (len nums / 2) 0 (len nums - 1) 0))
      as [[[v a'] calls']|e|]; simpl in *.
    + by rewrite (StoreFacts.run_bind_return _ _ _ _ _ Hq).
    + done.
    + by rewrite (StoreFacts.run_bind_out _ _ _ Hq).
  - rewrite (StoreFacts.run_bind_return _ _ _ _ _ (StoreFacts.run_copy _ _ _ Hl)).
    set (c := fresh (dom σ')).
    pose proof (store_quickselect_agrees (<[c := Store.values_of nums]> σ') rand c nums
                  (len nums / 2 - 1) 0 (len nums - 1) 0 ltac:(by rewrite lookup_insert_eq))
      as Hq1.
    destruct (qs_value (quickselect rand nums (len nums / 2 - 1) 0 (len nums - 1) 0))
      as [[[m1 copy1] calls1]|e|]; simpl in *.
    + rewrite (StoreFacts.run_bind_return _ _ _ _ _ Hq1).
      erewrite StoreFacts.run_bind_return;
        [|apply (StoreFacts.run_read_numbers _ c copy1); by rewrite lookup_insert_eq].
      simpl.
      pose proof (store_quickselect_agrees
                    (<[c := Store.values_of copy1]> (<[c := Store.values_of nums]> σ'))
                    rand c copy1 (len nums / 2) (len nums / 2) (len copy1 - 1) calls1
                    ltac:(by rewrite lookup_insert_eq)) as Hq2.
      destruct (qs_value (quickselect rand copy1 (len nums / 2) (len nums / 2)
                            (len copy1 - 1) calls1)) as [[[m2 copy2] calls2]|e|]; simpl in *.
      * by rewrite (StoreFacts.run_bind_return _ _ _ _ _ Hq2).
      * done.
      * by rewrite (StoreFacts.run_bind_out _ _ _ Hq2).
    + done.
    + by rewrite (StoreFacts.run_bind_out _ _ _ Hq1).
Qed.

Lemma store_percentile_agrees (σ : gmap Store.loc (list value)) arr elems p key :
  σ !! arr = Some elems →
  (Store.percentile arr p key σ).1 = percentile (VArray elems) p key.
Proof.
  intros Harr. unfold Store.percentile, percentile.
  destruct (_ || _); [done|].
  apply (store_extract_then σ arr elems key); [done|].
  intros σ' l nums Hl.
  destruct (decide (length nums = 0%nat)); [done|].
  destruct p as [p| | |]; [|done..].
  destruct (decide (p = 0%Qc)); [done|].
  destruct (decide (p = Qc_of_Z 100)); [done|].
  rewrite (StoreFacts.run_bind_return _ _ _ _ _ (StoreFacts.run_copy _ _ _ Hl)).
  set (c := fresh (dom σ')).
  erewrite StoreFacts.run_bind_return;
    [|apply (StoreFacts.run_sort_in_place _ c nums); by rewrite lookup_insert_eq].
  erewrite StoreFacts.run_bind_return;
    [|apply (StoreFacts.run_read_numbers _ c (sort nums)); by rewrite lookup_insert_eq].
  simpl. set (index := (p / Qc_of_Z 100 * Qc_of_Z (len (sort nums) - 1))%Qc).
  destruct (decide (Math_floor index = Math_ceil index)).
  - rewrite StoreFacts.run_bind. unfold Store.lift.
    by destruct (get (sort nums) (Math_floor index)).
  - rewrite StoreFacts.run_bind. unfold Store.lift at 1.
    destruct (get (sort nums) (Math_floor index)); simpl; [|done].
    rewrite StoreFacts.run_bind. unfold Store.lift.
    by destruct (get (sort nums) (Math_ceil index)).
Qed.

Lemma store_mode_agrees (σ : gmap Store.loc (list value)) arr elems key :
  σ !! arr = Some elems →
  match mode (VArray elems) key with
  | Return res =>
      ∃ l σ', Store.mode arr key σ = (Return l, σ') ∧
              σ' !! l = Some (Store.values_of res)
  | Throw e => (Store.mode arr key σ).1 = Throw e
  | OutOfBounds => (Store.mode arr key σ).1 = OutOfBounds
  end.
Proof.
  intros Harr. unfold Store.mode, mode.
  pose proof (store_extractNumbers_agrees σ arr elems key Harr) as Hex.
  rewrite StoreFacts.run_bind.
  destruct (extractNumbers (VArray elems) key) as [nums|e|]; simpl.
  - destruct Hex as (l & σ' & -> & Hl).
    rewrite (StoreFacts.run_bind_return _ _ _ _ _ (StoreFacts.run_read_numbers _ _ _ Hl)).
    unfold mode_of. destruct (decide (length nums = 0%nat)).
    { eexists _, _. split; [reflexivity|]. by rewrite lookup_insert_eq. }
    rewrite StoreFacts.run_bind. unfold Store.alloc at 1. simpl.
    set (res := fresh (dom σ')).
    set (modes := (filter _ _).*1).
    erewrite StoreFacts.run_bind_return;
      [|apply (StoreFacts.run_push_all _ res [] modes); by rewrite lookup_insert_eq].
    erewrite StoreFacts.run_bind_return;
      [|apply (StoreFacts.run_sort_in_place _ res modes); by rewrite lookup_insert_eq].
    eexists _, _. split; [reflexivity|]. by rewrite lookup_insert_eq.
  - by destruct Hex as (σ' & ->).
  - by destruct Hex as (σ' & ->).
Qed.

(** On the caller's collection [elems], held at [arr], the calculators on
    a store return what the calculators on values return. *)
Lemma store_calculators_agree (σ : gmap Store.loc (list value)) rand Math_sqrt arr elems
    key options p :
  σ !! arr = Some elems →
  (Store.mean arr key σ).1 = mean (VArray elems) key ∧
  (Store.median rand arr key σ).1 = median rand (VArray elems) key ∧
  (Store.range arr key σ).1 = range (VArray elems) key ∧
  (Store.variance arr options σ).1 = variance (VArray elems) options ∧
  (Store.stdev Math_sqrt arr options σ).1 = stdev Math_sqrt (VArray elems) options ∧
  (Store.percentile arr p key σ).1 = percentile (VArray elems) p key.
Proof.
  intros Harr.
  split; [by apply store_mean_agrees|].
  split; [by apply store_median_agrees|].
  split; [by apply store_range_agrees|].
  split; [by apply store_variance_agrees|].
  split; [by apply store_stdev_agrees|].
  by apply store_percentile_agrees.
Qed.

(** * Further properties *)

(** ** toFixedNumber *)

Lemma factor_pos precision : (0 < Qc_of_Z 10 ^ precision)%Qc.
Proof.
  induction precision as [|n IH]; simpl; [done|].
  apply Qcmult_pos_pos; [|done]. by apply (Z2Qc_inj_lt 0 10).
Qed.

Lemma Math_round_mono x y : (x ≤ y)%Qc → Math_round x ≤ Math_round y.
Proof.
  intros Hxy. unfold Math_round. apply Qfloor_resp_le.
  by apply (Qcplus_le_mono_r x y (Q2Qc (1 # 2))).
Qed.

Lemma scaled_back precision n :
  (Qc_of_Z n / Qc_of_Z 10 ^ precision * Qc_of_Z 10 ^ precision = Qc_of_Z n)%Qc.
Proof.
  pose proof (factor_pos precision) as Hf. field.
  intros H. rewrite H in Hf. by apply Qclt_not_eq in Hf.
Qed.

(** X2.  Rounding keeps the order of numbers. *)
Theorem toFixedNumber_monotone precision v w :
  (v ≤ w)%Qc → (toFixedNumber_at precision v ≤ toFixedNumber_at precision w)%Qc.
Proof.
  intros Hvw. unfold toFixedNumber_at.
  pose proof (factor_pos precision) as Hf.
  apply (Qcmult_le_mono_pos_r _ _ _ Hf). rewrite !scaled_back.
  apply (proj1 (Z2Qc_inj_le _ _)), Math_round_mono.
  apply Qcmult_le_mono_nonneg_r; [by apply Qclt_le_weak|done].
Qed.

Lemma toFixedNumber_monotone_witness :
  (toFixedNumber_at 2 (Q2Qc (1 # 3)) ≤ toFixedNumber_at 2 (Q2Qc (2 # 3)))%Qc.
Proof. apply toFixedNumber_monotone. by vm_compute. Defined.

(** ** The extractor and what the calculators make of its outcome *)

Lemma extract_loop_clean mapped os i acc :
  Forall2 stands_for mapped os →
  extract_loop mapped i acc = Return (acc ++ omap id os).
Proof.
  intros H. revert i acc. induction H as [|v o mapped os Hv _ IH]; intros i acc; simpl.
  { by rewrite app_nil_r. }
  destruct o as [q|]; simpl in *.
  - subst v. rewrite IH. by rewrite <- app_assoc.
  - destruct Hv as [->| ->]; by rewrite IH.
Qed.

Lemma project_fields k recs :
  project k (VObject <$> recs) = Return (lookup_field k <$> recs).
Proof.
  induction recs as [|r recs IH]; [done|].
  rewrite !fmap_cons. simpl project. by rewrite IH.
Qed.

Lemma extract_loop_numbers nums i acc :
  extract_loop ((λ q, VNumber (Fin q)) <$> nums) i acc = Return (acc ++ nums).
Proof.
  rewrite (extract_loop_clean _ (Some <$> nums)).
  - do 2 f_equal. induction nums as [|q nums IH]; [done|]. simpl. by f_equal.
  - induction nums as [|q nums IH]; constructor; done.
Qed.

(** X4.  An array of finite numbers, read without a key, is extracted as
    it is: same numbers, same order. *)
Theorem extractNumbers_of_numbers nums key :
  truthy key = None →
  extractNumbers (VArray ((λ q, VNumber (Fin q)) <$> nums)) key = Return nums.
Proof.
  intros Hkey. unfold extractNumbers. rewrite Hkey.
  destruct (decide _) as [Hz|_].
  { rewrite length_fmap in Hz. by destruct nums. }
  simpl. by rewrite extract_loop_numbers.
Qed.

Lemma extractNumbers_of_numbers_witness :
  extractNumbers (VArray ((λ q, VNumber (Fin q)) <$> [Qc_of_Z 3; Qc_of_Z 1])) (Some "")
  = Return [Qc_of_Z 3; Qc_of_Z 1].
Proof. apply extractNumbers_of_numbers. reflexivity. Defined.

Lemma lookup_field_own k r o :
  NoDup r.*1 → own_field k r o → stands_for (lookup_field k r) o.
Proof.
  assert (∀ v, NoDup r.*1 → (k, v) ∈ r → lookup_field k r = v) as Hin.
  { intros v. induction r as [|[k' v'] r IH]; simpl; intros Hnd Hv.
    { by apply not_elem_of_nil in Hv. }
    apply NoDup_cons in Hnd as [Hk' Hnd].
    destruct (decide (k' = k)) as [->|Hne].
    - apply elem_of_cons in Hv as [[= ->]|Hv]; [done|].
      destruct Hk'. apply list_elem_of_fmap. by exists (k, v).
    - apply elem_of_cons in Hv as [[= ? ?]|Hv]; [done|]. by apply IH. }
  assert (k ∉ r.*1 → lookup_field k r = VUndefined) as Hout.
  { clear Hin. induction r as [|[k' v'] r IH]; simpl; intros Hk; [done|].
    apply not_elem_of_cons in Hk as [Hne Hk]. rewrite decide_False by congruence. by apply IH. }
  intros Hnd. destruct o as [q|]; simpl.
  - by apply Hin.
  - intros [Hk|[Hv|Hv]]; [right; by apply Hout|left; by apply Hin|right; by apply Hin].
Qed.

(** X5.  With a key that is no property of [Object.prototype], an array
    of plain records is extracted field by field: a record whose field
    is a finite number gives that number, a record without the field, or
    with a null or undefined one, gives nothing, and the order of the
    records is kept.  (For the keys left out a record answers the
    inherited property, which the embedding of [obj[key]] does not
    model.) *)
Theorem extractNumbers_of_records k recs os :
  k ≠ "" →
  k ∉ Object_prototype_keys →
  Forall (λ r, NoDup r.*1) recs →
  Forall2 (own_field k) recs os →
  extractNumbers (VArray (VObject <$> recs)) (Some k) = Return (omap id os).
Proof.
  intros Hk _ Hnd Hrecs.
  assert (truthy (Some k) = Some k) as Hkey by (simpl; by rewrite decide_False).
  unfold extractNumbers. rewrite Hkey.
  destruct (decide _) as [Hz|_].
  { rewrite length_fmap in Hz. destruct recs; [|done]. by inversion Hrecs. }
  rewrite project_fields. simpl.
  rewrite (extract_loop_clean _ os); [done|].
  induction Hrecs as [|r o recs os Hr _ IH]; [constructor|].
  apply Forall_cons in Hnd as [Hr' Hnd]. constructor; [|by apply IH].
  by apply lookup_field_own.
Qed.

Lemma extractNumbers_of_records_witness :
  extractNumbers
    (VArray (VObject <$> [[("name", VString "A"); ("score", VNumber (Fin (Qc_of_Z 85)))];
                          [("name", VString "B")];
                          [("score", VNumber (Fin (Qc_of_Z 78)))]]))
    (Some "score")
  = Return [Qc_of_Z 85; Qc_of_Z 78].
Proof.
  apply (extractNumbers_of_records "score" _ [Some (Qc_of_Z 85); None; Some (Qc_of_Z 78)]).
  - discriminate.
  - apply (bool_decide_unpack _). reflexivity.
  - repeat constructor; simpl; apply (bool_decide_unpack _); reflexivity.
  - constructor; [simpl; set_solver|].
    constructor; [left; simpl; apply (bool_decide_unpack _); reflexivity|].
    constructor; [simpl; set_solver|constructor].
Defined.

(** X6.  No calculator swallows or rewrites an error of the extractor:
    when the extractor throws, for a value that is no array or a value
    that is no number, every calculator throws the same error; percentile
    does so once its own check of [p] has passed. *)
Theorem extractor_errors_propagate rand Math_sqrt arr k sample p e :
  extractNumbers arr k = Throw e →
  mean arr k = Throw e ∧
  median rand arr k = Throw e ∧
  mode arr k = Throw e ∧
  range arr k = Throw e ∧
  variance arr {| key := k; isSample := sample |} = Throw e ∧
  stdev Math_sqrt arr {| key := k; isSample := sample |} = Throw e ∧
  (number_ltb p (Fin 0%Qc) = false → number_ltb (Fin (Qc_of_Z 100)) p = false →
   percentile arr p k = Throw e).
Proof.
  intros He. unfold mean, median, mode, range, variance, stdev, percentile. simpl.
  rewrite He. simpl. repeat split. by intros -> ->.
Qed.

Lemma extractor_errors_propagate_witness :
  median (λ _, 0%Qc) (VString "1,2,3") None = Throw InvalidInputKind ∧
  range (VArray [VNumber (Fin 1%Qc); VNumber NaN]) None
    = Throw (NonNumericValue 1 (VNumber NaN)).
Proof.
  split.
  - apply (extractor_errors_propagate (λ _, 0%Qc) (λ x, x) (VString "1,2,3") None None NaN
             InvalidInputKind eq_refl).
  - apply (extractor_errors_propagate (λ _, 0%Qc) (λ x, x)
             (VArray [VNumber (Fin 1%Qc); VNumber NaN]) None None NaN
             (NonNumericValue 1 (VNumber NaN)) eq_refl).
Defined.

(** X7.  When nothing is extracted, from the empty array or from an
    array of nulls, every calculator returns its neutral answer instead
    of failing: 0, and the empty sequence for mode; percentile does so
    once its own check of [p] has passed. *)
Theorem calculators_on_nothing rand Math_sqrt arr k sample p :
  extractNumbers arr k = Return [] →
  mean arr k = Return 0%Qc ∧
  median rand arr k = Return 0%Qc ∧
  mode arr k = Return [] ∧
  range arr k = Return 0%Qc ∧
  variance arr {| key := k; isSample := sample |} = Return 0%Qc ∧
  stdev Math_sqrt arr {| key := k; isSample := sample |} = Return 0%Qc ∧
  (number_ltb p (Fin 0%Qc) = false → number_ltb (Fin (Qc_of_Z 100)) p = false →
   percentile arr p k = Return (Fin 0%Qc)).
Proof.
  intros He. unfold mean, median, mode, range, variance, stdev, percentile. simpl.
  rewrite He. simpl. repeat split. by intros -> ->.
Qed.

Lemma calculators_on_nothing_witness :
  mean (VArray [VNull; VUndefined]) None = Return 0%Qc.
Proof.
  apply (calculators_on_nothing (λ _, 0%Qc) (λ x, x) (VArray [VNull; VUndefined])
           None None NaN eq_refl).
Defined.

Lemma sort_singleton x : sort [x] = [x].
Proof. apply Permutation_singleton_r, sort_perm. Qed.

(** X8.  A single extracted value is its own median, mode and every
    percentile, as it stands; its mean is that value, rounded; its range
    and its population variance are 0, and its population standard
    deviation is the rounded root of 0. *)
Theorem calculators_on_one_value rand Math_sqrt arr k x p :
  extractNumbers arr k = Return [x] →
  (0 ≤ p)%Qc → (p ≤ Qc_of_Z 100)%Qc →
  let population := {| key := k; isSample := Some false |} in
  mean arr k = Return (toFixedNumber x) ∧
  median rand arr k = Return x ∧
  mode arr k = Return [x] ∧
  range arr k = Return 0%Qc ∧
  variance arr population = Return 0%Qc ∧
  stdev Math_sqrt arr population = Return (toFixedNumber (Math_sqrt 0%Qc)) ∧
  percentile arr (Fin p) k = Return (Fin x).
Proof.
  intros Hnums Hp0 Hp100 population.
  assert ((0 + x) / Qc_of_nat 1 = x)%Qc as Hmean.
  { replace (Qc_of_nat 1) with 1%Qc by (by apply Qc_is_canon). by field. }
  assert (toFixedNumber ((0 + (x - x) * ((x - x) * 1)) / Qc_of_Z (len [x]))%Qc = 0%Qc)
    as Hvar.
  { replace ((0 + (x - x) * ((x - x) * 1)) / Qc_of_Z (len [x]))%Qc with 0%Qc;
      [apply toFixedNumber_zero|].
    replace (Qc_of_Z (len [x])) with 1%Qc by (by apply Qc_is_canon). by field. }
  split; [|split; [|split; [|split; [|split; [|split]]]]].
  - unfold mean. rewrite Hnums. simpl. unfold sum. simpl. by rewrite Hmean.
  - unfold median, median_of. rewrite Hnums. simpl.
    unfold medianOf. by rewrite sort_singleton.
  - unfold mode, mode_of. rewrite Hnums. simpl. by rewrite sort_singleton.
  - unfold range. rewrite Hnums. simpl. f_equal. ring.
  - unfold variance. simpl. rewrite Hnums. simpl.
    unfold sum, sumOfSquares. simpl. by rewrite Hmean, Hvar.
  - unfold stdev. simpl. rewrite Hnums. simpl.
    unfold sum, sumOfSquares. simpl. by rewrite Hmean, Hvar.
  - destruct (percentile_ranks arr k [x] p Hnums ltac:(done) Hp0 Hp100)
      as (lv & uv & Hlv & _ & _ & _ & _ & _ & _ & ->).
    rewrite sort_singleton in *.
    destruct (decide (p = 0%Qc)); [done|].
    destruct (decide (p = Qc_of_Z 100)); [done|].
    assert ((p / Qc_of_Z 100 * Qc_of_Z (len [x] - 1))%Qc = 0%Qc) as Hindex.
    { unfold len. simpl. apply Qcmult_0_r. }
    rewrite Hindex in *. rewrite decide_True by done.
    by injection Hlv as <-.
Qed.

Lemma calculators_on_one_value_witness :
  mean (VArray [VNull; VNumber (Fin (Qc_of_Z 7))]) None = Return (toFixedNumber (Qc_of_Z 7)) ∧
  percentile (VArray [VNull; VNumber (Fin (Qc_of_Z 7))]) (Fin (Qc_of_Z 30)) None
    = Return (Fin (Qc_of_Z 7)).
Proof.
  destruct (calculators_on_one_value (λ _, 0%Qc) (λ x, x)
              (VArray [VNull; VNumber (Fin (Qc_of_Z 7))]) None (Qc_of_Z 7) (Qc_of_Z 30))
    as (Hmean & _ & _ & _ & _ & _ & Hp).
  - reflexivity.
  - by vm_compute.
  - by vm_compute.
  - by split.
Defined.

(** ** Sums *)

Lemma foldl_plus_from a l : foldl Qcplus a l = (a + sum l)%Qc.
Proof.
  unfold sum. revert a. induction l as [|x l IH]; intros a; simpl.
  - ring.
  - rewrite (IH (a + x)%Qc), (IH (0 + x)%Qc). ring.
Qed.

Lemma sum_cons x l : sum (x :: l) = (x + sum l)%Qc.
Proof. unfold sum at 1. simpl. rewrite foldl_plus_from. ring. Qed.

Lemma Qc_of_nat_S n : Qc_of_nat (S n) = (Qc_of_nat n + 1)%Qc.
Proof. unfold Qc_of_nat. by rewrite Nat2Z.inj_succ, <- Z.add_1_r, Z2Qc_inj_add. Qed.

Lemma sum_lower m l :
  (∀ x, x ∈ l → (m ≤ x)%Qc) → (Qc_of_nat (length l) * m ≤ sum l)%Qc.
Proof.
  induction l as [|x l IH]; intros Hm.
  - unfold sum, Qc_of_nat. simpl. change (Z.of_nat 0) with 0.
    rewrite Z2Qc_inj_0, Qcmult_0_l. done.
  - simpl length. rewrite Qc_of_nat_S, sum_cons.
    replace ((Qc_of_nat (length l) + 1) * m)%Qc
      with (m + Qc_of_nat (length l) * m)%Qc by ring.
    apply Qcplus_le_compat; [apply Hm; left|].
    apply IH. intros y Hy. apply Hm. by right.
Qed.

Lemma toFixedNumber_mono v w : (v ≤ w)%Qc → (toFixedNumber v ≤ toFixedNumber w)%Qc.
Proof.
  intros Hvw. unfold toFixedNumber, toFixedNumber_at.
  pose proof (factor_pos 10) as Hf.
  apply (Qcmult_le_mono_pos_r _ _ _ Hf). rewrite !scaled_back.
  apply (proj1 (Z2Qc_inj_le _ _)), Math_round_mono.
  apply Qcmult_le_mono_nonneg_r; [by apply Qclt_le_weak|done].
Qed.

(** ** range *)

Lemma range_loop_spec rest mn mx :
  (mn ≤ mx)%Qc →
  let mm := range_loop rest mn mx in
  (mm.1 ≤ mn)%Qc ∧ (mx ≤ mm.2)%Qc ∧
  mm.1 ∈ mn :: rest ∧ mm.2 ∈ mx :: rest ∧
  ∀ x, x ∈ rest → (mm.1 ≤ x)%Qc ∧ (x ≤ mm.2)%Qc.
Proof.
  revert mn mx. induction rest as [|x rest IH]; intros mn mx Hmm; simpl.
  { split; [done|]. split; [done|]. split; [left|]. split; [left|].
    intros x Hx. by apply not_elem_of_nil in Hx. }
  destruct (Qcltb x mn) eqn:Hlt;
    [apply bool_decide_eq_true in Hlt|apply bool_decide_eq_false in Hlt].
  - destruct (IH x mx) as (H1 & H2 & H3 & H4 & H5).
    { transitivity mn; [by apply Qclt_le_weak|done]. }
    split; [transitivity x; [done|by apply Qclt_le_weak]|]. split; [done|].
    split; [by right|].
    split; [apply elem_of_cons in H4 as [->|H4]; [left|by do 2 right]|].
    intros y [->|Hy]%elem_of_cons; [|by apply H5].
    split; [done|]. transitivity mx; [|done].
    transitivity mn; [by apply Qclt_le_weak|done].
  - apply Qcnot_lt_le in Hlt.
    destruct (Qcltb mx x) eqn:Hgt;
      [apply bool_decide_eq_true in Hgt|apply bool_decide_eq_false in Hgt].
    + destruct (IH mn x) as (H1 & H2 & H3 & H4 & H5); [done|].
      split; [done|]. split; [transitivity x; [by apply Qclt_le_weak|done]|].
      split; [apply elem_of_cons in H3 as [->|H3]; [left|by do 2 right]|].
      split; [by right|].
      intros y [->|Hy]%elem_of_cons; [|by apply H5].
      split; [|done]. transitivity mn; done.
    + apply Qcnot_lt_le in Hgt.
      destruct (IH mn mx) as (H1 & H2 & H3 & H4 & H5); [done|].
      split; [done|]. split; [done|].
      split; [apply elem_of_cons in H3 as [->|H3]; [left|by do 2 right]|].
      split; [apply elem_of_cons in H4 as [->|H4]; [left|by do 2 right]|].
      intros y [->|Hy]%elem_of_cons; [|by apply H5].
      split; [transitivity mn; done|transitivity mx; done].
Qed.

Lemma range_extremes nums :
  nums ≠ [] →
  ∃ m M, (match nums with
          | [] => Return 0%Qc
          | x0 :: rest =>
              Return ((range_loop rest x0 x0).2 - (range_loop rest x0 x0).1)%Qc
          end) = Return (M - m)%Qc ∧
         m ∈ nums ∧ M ∈ nums ∧ ∀ x, x ∈ nums → (m ≤ x)%Qc ∧ (x ≤ M)%Qc.
Proof.
  intros Hne. destruct nums as [|x0 rest]; [done|].
  destruct (range_loop_spec rest x0 x0 (Qcle_refl _)) as (H1 & H2 & H3 & H4 & H5).
  eexists _, _. split; [reflexivity|]. split; [done|]. split; [done|].
  intros x [->|Hx]%elem_of_cons; [done|by apply H5].
Qed.

(** X9.  The range of a non-empty sequence is its greatest value minus
    its least one, although one pass updates at most one of the two per
    element; it is never negative. *)
Theorem range_is_max_minus_min arr k nums :
  extractNumbers arr k = Return nums →
  nums ≠ [] →
  ∃ m M, range arr k = Return (M - m)%Qc ∧
         m ∈ nums ∧ M ∈ nums ∧
         (∀ x, x ∈ nums → (m ≤ x)%Qc ∧ (x ≤ M)%Qc) ∧
         (0 ≤ M - m)%Qc.
Proof.
  intros Hnums Hne. unfold range. rewrite Hnums. simpl. cbv zeta.
  destruct (range_extremes nums Hne) as (m & M & Hr & Hm & HM & Hall).
  exists m, M. split; [done|]. split; [done|]. split; [done|]. split; [done|].
  apply (proj1 (Qcle_minus_iff m M)). by apply (Hall m).
Qed.

Lemma range_is_max_minus_min_witness :
  ∃ m M, range (VArray [VNumber (Fin (Qc_of_Z 4)); VNumber (Fin (Qc_of_Z 9));
                        VNumber (Fin (Qc_of_Z 1))]) None = Return (M - m)%Qc ∧
         (m ≤ Qc_of_Z 1)%Qc ∧ (Qc_of_Z 9 ≤ M)%Qc.
Proof.
  destruct (range_is_max_minus_min
              (VArray [VNumber (Fin (Qc_of_Z 4)); VNumber (Fin (Qc_of_Z 9));
                       VNumber (Fin (Qc_of_Z 1))]) None
              [Qc_of_Z 4; Qc_of_Z 9; Qc_of_Z 1] eq_refl ltac:(discriminate))
    as (m & M & Hr & _ & _ & Hall & _).
  exists m, M. split; [exact Hr|]. split.
  - apply (Hall (Qc_of_Z 1)). do 2 right. left.
  - apply (Hall (Qc_of_Z 9)). right. left.
Defined.

(** ** variance and stdev *)

Lemma foldl_plus_fmap (g : Qc → Qc) a l :
  foldl (λ s x, s + g x)%Qc a l = foldl Qcplus a (g <$> l).
Proof. revert a. induction l as [|x l IH]; intros a; simpl; [done|apply IH]. Qed.

Lemma sumOfSquares_sum nums meanValue :
  sumOfSquares nums meanValue = sum ((λ x, (x - meanValue) ^ 2)%Qc <$> nums).
Proof. apply foldl_plus_fmap. Qed.

Lemma square_nonneg (y : Qc) : (0 ≤ y ^ 2)%Qc.
Proof.
  simpl. rewrite Qcmult_1_r. destruct (Qclt_le_dec y 0) as [Hneg|Hpos].
  - replace (y * y)%Qc with (- y * - y)%Qc by ring.
    assert (0 ≤ - y)%Qc.
    { apply Qclt_le_weak in Hneg. apply Qcopp_le_compat in Hneg.
      by replace (- 0)%Qc with 0%Qc in Hneg by ring. }
    by apply Qcmult_nonneg_nonneg.
  - by apply Qcmult_nonneg_nonneg.
Qed.

Lemma sum_nonneg l : (∀ x, x ∈ l → (0 ≤ x)%Qc) → (0 ≤ sum l)%Qc.
Proof.
  intros H. pose proof (sum_lower 0%Qc l H) as Hl. by rewrite Qcmult_0_r in Hl.
Qed.

Lemma sumOfSquares_nonneg nums meanValue : (0 ≤ sumOfSquares nums meanValue)%Qc.
Proof.
  rewrite sumOfSquares_sum. apply sum_nonneg.
  intros y (x & -> & _)%list_elem_of_fmap. apply square_nonneg.
Qed.

(** X10.  A variance is never negative. *)
Theorem variance_nonnegative arr options r :
  variance arr options = Return r → (0 ≤ r)%Qc.
Proof.
  unfold variance.
  destruct (extractNumbers arr (key options)) as [nums|e|]; simpl; [|done..].
  destruct (decide (length nums = 0%nat)) as [Hz|Hnz]; [by intros [= <-]|].
  set (divisor := if default true (isSample options) then len nums - 1 else len nums).
  destruct (decide (divisor ≤ 0)) as [|Hd]; [done|]. intros [= <-].
  pose proof (divisor_pos _ Hd) as Hdiv.
  rewrite <- toFixedNumber_zero. apply toFixedNumber_mono, div_lower; [done|].
  rewrite Qcmult_0_r. apply sumOfSquares_nonneg.
Qed.

Lemma variance_nonnegative_witness :
  ∃ r, variance (VArray [VNumber (Fin (Qc_of_Z 7)); VNumber (Fin (Qc_of_Z 9))])
         {| key := None; isSample := None |} = Return r ∧ (0 ≤ r)%Qc.
Proof.
  eexists. split; [reflexivity|].
  by apply (variance_nonnegative
              (VArray [VNumber (Fin (Qc_of_Z 7)); VNumber (Fin (Qc_of_Z 9))])
              {| key := None; isSample := None |}).
Defined.

(** X11.  With a square root that sends 0 to 0, stdev is variance
    followed by the rounded square root: it returns the rounded root of
    what variance returns and throws what variance throws. *)
Theorem stdev_is_rounded_root_of_variance Math_sqrt arr options :
  Math_sqrt 0%Qc = 0%Qc →
  stdev Math_sqrt arr options =
    v ← variance arr options; Return (toFixedNumber (Math_sqrt v)).
Proof.
  intros Hsqrt. unfold stdev, variance.
  destruct (extractNumbers arr (key options)) as [nums|e|]; simpl; [|done..].
  destruct (decide (length nums = 0%nat)).
  { simpl. by rewrite Hsqrt, toFixedNumber_zero. }
  by destruct (decide _).
Qed.

Lemma stdev_is_rounded_root_of_variance_witness :
  stdev (λ x, x) (VArray [VNumber (Fin 1%Qc)]) {| key := None; isSample := Some false |}
  = v ← variance (VArray [VNumber (Fin 1%Qc)]) {| key := None; isSample := Some false |};
    Return (toFixedNumber v).
Proof.
  exact (stdev_is_rounded_root_of_variance (λ x, x) (VArray [VNumber (Fin 1%Qc)])
           {| key := None; isSample := Some false |} eq_refl).
Defined.

(** ** The order of the data and the choice of the pivots *)

Lemma bind_Return {A B} (a : A) (f : A → outcome B) : (Return a ≫= f) = f a.
Proof. reflexivity. Qed.

Lemma frequency_perm v l l' : l ≡ₚ l' → frequency v l = frequency v l'.
Proof. unfold frequency. by intros ->. Qed.

Lemma sorted_distinct_same l l' :
  StronglySorted Qcle l → StronglySorted Qcle l' → NoDup l → NoDup l' →
  (∀ x, x ∈ l ↔ x ∈ l') → l = l'.
Proof.
  intros Hs Hs' Hd Hd' Hiff. apply (StronglySorted_unique Qcle); [done..|].
  by apply NoDup_Permutation.
Qed.

Lemma mode_of_perm l l' : l ≡ₚ l' → mode_of l = mode_of l'.
Proof.
  intros Hp.
  destruct (mode_of_spec l) as (Hs & Hd & Hiff).
  destruct (mode_of_spec l') as (Hs' & Hd' & Hiff').
  apply sorted_distinct_same; [done..|].
  intros x. rewrite Hiff, Hiff', Hp.
  split; intros [Hx Hall]; (split; [done|]); intros w.
  - rewrite <- !(frequency_perm _ _ _ Hp). apply Hall.
  - rewrite !(frequency_perm _ _ _ Hp). apply Hall.
Qed.

Lemma least_unique (l l' : list Qc) m m' :
  l ≡ₚ l' → m ∈ l → m' ∈ l' →
  (∀ x, x ∈ l → (m ≤ x)%Qc) → (∀ x, x ∈ l' → (m' ≤ x)%Qc) → m = m'.
Proof.
  intros Hp Hm Hm' Hall Hall'. apply Qcle_antisym.
  - apply Hall. by rewrite Hp.
  - apply Hall'. by rewrite <- Hp.
Qed.

Lemma greatest_unique (l l' : list Qc) M M' :
  l ≡ₚ l' → M ∈ l → M' ∈ l' →
  (∀ x, x ∈ l → (x ≤ M)%Qc) → (∀ x, x ∈ l' → (x ≤ M')%Qc) → M = M'.
Proof.
  intros Hp HM HM' Hall Hall'. apply Qcle_antisym.
  - apply Hall'. by rewrite <- Hp.
  - apply Hall. by rewrite Hp.
Qed.

Lemma Math_min_perm l l' : l ≡ₚ l' → Math_min l = Math_min l'.
Proof.
  intros Hp. destruct l as [|x l], l' as [|x' l'].
  - done.
  - by apply Permutation_nil_cons in Hp.
  - symmetry in Hp. by apply Permutation_nil_cons in Hp.
  - simpl. f_equal.
    destruct (foldl_min_spec l x) as [Hin Hall].
    destruct (foldl_min_spec l' x') as [Hin' Hall'].
    by eapply least_unique.
Qed.

Lemma Math_max_perm l l' : l ≡ₚ l' → Math_max l = Math_max l'.
Proof.
  intros Hp. destruct l as [|x l], l' as [|x' l'].
  - done.
  - by apply Permutation_nil_cons in Hp.
  - symmetry in Hp. by apply Permutation_nil_cons in Hp.
  - simpl. f_equal.
    destruct (foldl_max_spec l x) as [Hin Hall].
    destruct (foldl_max_spec l' x') as [Hin' Hall'].
    by eapply greatest_unique.
Qed.

Lemma len_perm l l' : l ≡ₚ l' → len l = len l'.
Proof. unfold len. by intros ->. Qed.

(** X12.  mode, range and percentile depend on which numbers are
    extracted and how often, not on their order: two inputs whose
    extracted sequences are rearrangements of each other get the same
    answer, or the same error.  (mean, variance and stdev add the numbers
    up in the order of the data and are left out.) *)
Theorem calculators_ignore_order arr arr' k k' p nums nums' :
  extractNumbers arr k = Return nums →
  extractNumbers arr' k' = Return nums' →
  nums ≡ₚ nums' →
  mode arr k = mode arr' k' ∧
  range arr k = range arr' k' ∧
  percentile arr p k = percentile arr' p k'.
Proof.
  intros Hnums Hnums' Hp.
  pose proof (Permutation_length Hp) as Hlen.
  pose proof (len_perm _ _ Hp) as Hlen'.
  unfold mode, range, percentile.
  rewrite Hnums, Hnums', !bind_Return.
  rewrite <- ?Hlen, <- ?Hlen'.
  split; [by rewrite (mode_of_perm _ _ Hp)|]. split.
  - destruct (decide (nums = [])) as [->|Hne].
    { apply Permutation_nil_l in Hp. by subst. }
    assert (nums' ≠ []) as Hne'.
    { intros ->. by apply Permutation_nil_r in Hp. }
    destruct (range_extremes nums Hne) as (m & M & -> & Hm & HM & Hall).
    destruct (range_extremes nums' Hne') as (m' & M' & -> & Hm' & HM' & Hall').
    assert (M = M') as <-.
    { eapply greatest_unique; [exact Hp|done..| |]; intros x Hx;
        [by apply Hall|by apply Hall']. }
    assert (m = m') as <-; [|done].
    eapply least_unique; [exact Hp|done..| |]; intros x Hx;
      [by apply Hall|by apply Hall'].
  - destruct (_ || _); [done|].
    rewrite (Math_min_perm _ _ Hp), (Math_max_perm _ _ Hp), (sort_of_perm _ _ Hp).
    done.
Qed.

Lemma calculators_ignore_order_witness :
  range (VArray [VNumber (Fin (Qc_of_Z 1)); VNumber (Fin (Qc_of_Z 2))]) None
  = range (VArray [VNull; VNumber (Fin (Qc_of_Z 2)); VNumber (Fin (Qc_of_Z 1))]) None.
Proof.
  refine (proj1 (proj2 (calculators_ignore_order
            (VArray [VNumber (Fin (Qc_of_Z 1)); VNumber (Fin (Qc_of_Z 2))])
            (VArray [VNull; VNumber (Fin (Qc_of_Z 2)); VNumber (Fin (Qc_of_Z 1))])
            None None NaN [Qc_of_Z 1; Qc_of_Z 2] [Qc_of_Z 2; Qc_of_Z 1]
            eq_refl eq_refl _))).
  apply Permutation_swap.
Defined.

(** X13.  The median is the same whatever pivots the engine draws and
    whatever the order of the data: two calls on rearrangements of the
    same numbers, each with its own oracle, return the same value. *)
Theorem median_ignores_pivots_and_order rand rand' arr arr' k k' nums nums' :
  unit_interval rand → unit_interval rand' →
  extractNumbers arr k = Return nums →
  extractNumbers arr' k' = Return nums' →
  nums ≡ₚ nums' →
  median rand arr k = median rand' arr' k'.
Proof.
  intros Hrand Hrand' Hnums Hnums' Hp. unfold median. rewrite Hnums, Hnums'. simpl.
  destruct (decide (nums = [])) as [->|Hne].
  { apply Permutation_nil_l in Hp. by subst. }
  assert (nums' ≠ []) as Hne'.
  { intros ->. by apply Permutation_nil_r in Hp. }
  destruct (median_of_agrees rand nums Hrand Hne) as (m & Hm & ->).
  destruct (median_of_agrees rand' nums' Hrand' Hne') as (m' & Hm' & ->).
  rewrite (sort_of_perm _ _ Hp) in Hm. rewrite (len_perm _ _ Hp).
  by replace m' with m by congruence.
Qed.

Lemma median_ignores_pivots_and_order_witness :
  median (λ _, 0%Qc) (VArray [VNumber (Fin (Qc_of_Z 1)); VNumber (Fin (Qc_of_Z 2))]) None
  = median (λ _, Q2Qc (1 # 2))
      (VArray [VNumber (Fin (Qc_of_Z 2)); VNumber (Fin (Qc_of_Z 1))]) None.
Proof.
  apply (median_ignores_pivots_and_order (λ _, 0%Qc) (λ _, Q2Qc (1 # 2))
           _ _ None None [Qc_of_Z 1; Qc_of_Z 2] [Qc_of_Z 2; Qc_of_Z 1]).
  - intros n. split; [by vm_compute|reflexivity].
  - intros n. split; [by vm_compute|reflexivity].
  - reflexivity.
  - reflexivity.
  - apply Permutation_swap.
Defined.

(** ** quickselect *)

(** X14.  Called on a whole array with a rank inside it, quickselect
    returns the value the sorted array has at that rank, and leaves the
    array rearranged around it: that value at position [k], nothing
    greater before it, nothing smaller after it. *)
Theorem quickselect_returns_order_statistic rand arr k calls :
  unit_interval rand →
  0 ≤ k → k < len arr →
  ∃ v arr' calls',
    quickselect rand arr k 0 (len arr - 1) calls = QsFound v arr' calls' ∧
    get (sort arr) k = Some v ∧
    arr' ≡ₚ arr ∧ get arr' k = Some v ∧
    (∀ i x, i < k → get arr' i = Some x → (x ≤ v)%Qc) ∧
    (∀ j y, k < j → get arr' j = Some y → (v ≤ y)%Qc).
Proof.
  intros Hrand H0 Hk.
  destruct (qs_loop_found rand Hrand k (qs_width (QsState arr 0 (len arr - 1) calls))
              (QsState arr 0 (len arr - 1) calls))
    as (v & arr' & calls' & Hrun & Hv & Hl & Hp & Hord); simpl in *; try lia.
  destruct Hord as [Hk1 Hk2]; [by apply ordered_across_lo|apply ordered_across_hi; lia|].
  exists v, arr', calls'. split; [done|].
  split; [by eapply split_is_order_statistic|]. split; [done|]. split; [done|].
  split.
  - intros i x Hi Hx. apply (Hk1 i k); [lia|lia|done|done].
  - intros j y Hj Hy. apply (Hk2 k j); [lia|lia|done|done].
Qed.

Lemma quickselect_returns_order_statistic_witness :
  ∃ v arr' calls',
    quickselect (λ _, Q2Qc (1 # 2)) [Qc_of_Z 3; Qc_of_Z 1; Qc_of_Z 2] 0 0 2 0
      = QsFound v arr' calls' ∧
    get (sort [Qc_of_Z 3; Qc_of_Z 1; Qc_of_Z 2]) 0 = Some v.
Proof.
  destruct (quickselect_returns_order_statistic (λ _, Q2Qc (1 # 2))
              [Qc_of_Z 3; Qc_of_Z 1; Qc_of_Z 2] 0 0) as (v & arr' & calls' & Hq & Hv & _).
  - intros n. split; [by vm_compute|reflexivity].
  - lia.
  - reflexivity.
  - exists v, arr', calls'. split; [exact Hq|exact Hv].
Defined.

Lemma partition_loop_perm n arr pv i s arr' s' :
  partition_loop n arr pv i s = Some (arr', s') → arr' ≡ₚ arr.
Proof.
  revert arr i s. induction n as [|n IH]; intros arr i s; simpl.
  { by intros [= <- <-]. }
  destruct (get arr i) as [x|]; [|done]. simpl.
  destruct (Qcltb x pv).
  - destruct (swap arr s i) as [arr1|] eqn:Hsw; [|done]. simpl.
    intros H%IH. rewrite H. by apply swap_spec in Hsw as (_ & _ & Hp & _).
  - apply IH.
Qed.

Lemma partition_round_perm rand st arr3 s :
  partition_round rand st = Some (arr3, s) → arr3 ≡ₚ qs_arr st.
Proof.
  unfold partition_round.
  destruct (get (qs_arr st) _) as [pv|]; [|done]. simpl.
  destruct (swap (qs_arr st) _ _) as [arr1|] eqn:Hsw1; [|done]. simpl.
  destruct (partition_loop _ _ _ _ _) as [[arr2 s2]|] eqn:Hloop; [|done]. simpl.
  destruct (swap arr2 _ _) as [arr3'|] eqn:Hsw3; [|done]. simpl.
  intros [= <- <-].
  apply swap_spec in Hsw1 as (_ & _ & Hp1 & _).
  apply swap_spec in Hsw3 as (_ & _ & Hp3 & _).
  apply partition_loop_perm in Hloop. by rewrite Hp3, Hloop, Hp1.
Qed.

(** What a run of the loop leaves: the array, and the number of calls
    made to the oracle. *)
Lemma qs_loop_leaves rand k fuel st :
  match qs_loop fuel rand k st with
  | QsFound v arr' calls' =>
      arr' ≡ₚ qs_arr st ∧ v ∈ arr' ∧
      (qs_calls st < calls' ≤ qs_calls st + qs_width st)%nat
  | QsFallback v arr' calls' =>
      arr' ≡ₚ qs_arr st ∧ (qs_calls st ≤ calls' ≤ qs_calls st + qs_width st)%nat
  | _ => True
  end.
Proof.
  revert st. induction fuel as [|fuel IH]; intros st; simpl.
  { destruct (decide _); [done|]. split; [done|lia]. }
  destruct (decide (qs_left st ≤ qs_right st)) as [Hlr|]; [|split; [done|lia]].
  rewrite qs_body_round.
  destruct (partition_round rand st) as [[arr3 s]|] eqn:Hround; [|done].
  pose proof (partition_round_perm _ _ _ _ Hround) as Hp.
  pose proof (partition_round_bounds rand _ _ _ Hlr Hround) as Hs.
  destruct (decide (k = s)) as [->|Hks].
  { destruct (get arr3 s) as [v|] eqn:Hv; [|done]. simpl.
    split; [done|]. split; [by eapply get_elem_of|]. unfold qs_width. lia. }
  destruct (decide (k < s)).
  - specialize (IH (QsState arr3 (qs_left st) (s - 1) (S (qs_calls st)))).
    destruct (qs_loop fuel rand k _) as [v a c|v a c| |]; try done; simpl in *.
    + destruct IH as (Hp' & Hv & Hc). split; [by rewrite Hp'|]. split; [done|].
      unfold qs_width in *. simpl in *. lia.
    + destruct IH as (Hp' & Hc). split; [by rewrite Hp'|].
      unfold qs_width in *. simpl in *. lia.
  - specialize (IH (QsState arr3 (s + 1) (qs_right st) (S (qs_calls st)))).
    destruct (qs_loop fuel rand k _) as [v a c|v a c| |]; try done; simpl in *.
    + destruct IH as (Hp' & Hv & Hc). split; [by rewrite Hp'|]. split; [done|].
      unfold qs_width in *. simpl in *. lia.
    + destruct IH as (Hp' & Hc). split; [by rewrite Hp'|].
      unfold qs_width in *. simpl in *. lia.
Qed.

(** A run of the loop on a bound that lies inside the array. *)
Lemma qs_loop_in_array rand k fuel st :
  unit_interval rand →
  0 ≤ qs_left st → qs_right st < len (qs_arr st) → (qs_width st ≤ fuel)%nat →
  (∃ v arr' calls',
     qs_loop fuel rand k st = QsFound v arr' calls' ∧
     arr' ≡ₚ qs_arr st ∧ get arr' k = Some v ∧ qs_left st ≤ k ≤ qs_right st) ∨
  (∃ v arr' calls',
     qs_loop fuel rand k st = QsFallback v arr' calls' ∧
     arr' ≡ₚ qs_arr st ∧ ¬ qs_left st ≤ k ≤ qs_right st).
Proof.
  intros Hrand. revert st. induction fuel as [|fuel IH]; intros st H0 Hr Hw; simpl.
  { rewrite decide_False by (unfold qs_width in Hw; lia).
    right. eexists _, _, _. split; [done|]. split; [done|]. unfold qs_width in Hw. lia. }
  destruct (decide (qs_left st ≤ qs_right st)) as [Hlr|Hlr].
  2:{ right. eexists _, _, _. split; [done|]. split; [done|]. lia. }
  rewrite qs_body_round.
  destruct (partition_round_spec rand Hrand st H0 Hlr Hr)
    as (arr3 & s & pv & -> & Hs & Hl3 & Hp3 & _ & Hpv & _).
  destruct (decide (k = s)) as [->|Hks].
  { rewrite Hpv. simpl. left. eexists _, _, _. split; [done|]. done. }
  destruct (decide (k < s)).
  - destruct (IH (QsState arr3 (qs_left st) (s - 1) (S (qs_calls st))))
      as [(v & a' & c' & -> & Hp' & Hv & Hk)|(v & a' & c' & -> & Hp' & Hk)];
      simpl in *; [done|lia|unfold qs_width in *; simpl; lia| |].
    + left. eexists _, _, _. split; [done|]. split; [by rewrite Hp'|]. split; [done|lia].
    + right. eexists _, _, _. split; [done|]. split; [by rewrite Hp'|]. lia.
  - destruct (IH (QsState arr3 (s + 1) (qs_right st) (S (qs_calls st))))
      as [(v & a' & c' & -> & Hp' & Hv & Hk)|(v & a' & c' & -> & Hp' & Hk)];
      simpl in *; [lia|lia|unfold qs_width in *; simpl; lia| |].
    + left. eexists _, _, _. split; [done|]. split; [by rewrite Hp'|]. split; [done|lia].
    + right. eexists _, _, _. split; [done|]. split; [by rewrite Hp'|]. lia.
Qed.

(** X15.  For every rank [k] and every bound that lies inside the array,
    empty or not, every read and every swap of the loop stays inside the
    array, and what quickselect leaves is a rearrangement of it.  It
    returns from inside the loop, with the value it has put at position
    [k], exactly when [k] lies in the bound; otherwise it ends through the
    final [return arr[left]]. *)
Theorem quickselect_only_rearranges rand arr k left right calls :
  unit_interval rand →
  0 ≤ left → right < len arr →
  (∃ v arr' calls',
     quickselect rand arr k left right calls = QsFound v arr' calls' ∧
     arr' ≡ₚ arr ∧ get arr' k = Some v ∧ left ≤ k ≤ right) ∨
  (∃ v arr' calls',
     quickselect rand arr k left right calls = QsFallback v arr' calls' ∧
     arr' ≡ₚ arr ∧ ¬ left ≤ k ≤ right).
Proof.
  intros Hrand H0 Hr. unfold quickselect.
  by apply (qs_loop_in_array rand k _ (QsState arr left right calls)).
Qed.

(** X16.  quickselect draws one random number per iteration, and no more
    of them than the bound is wide: at least one and at most
    [right - left + 1] when it returns from inside the loop, none when
    the bound is empty. *)
Theorem quickselect_draws_at_most_width rand arr k left right calls :
  (∀ v arr' calls', quickselect rand arr k left right calls = QsFound v arr' calls' →
                    (calls < calls')%nat ∧
                    Z.of_nat calls' ≤ Z.of_nat calls + Z.max 0 (right - left + 1)) ∧
  (∀ v arr' calls', quickselect rand arr k left right calls = QsFallback v arr' calls' →
                    (calls ≤ calls')%nat ∧
                    Z.of_nat calls' ≤ Z.of_nat calls + Z.max 0 (right - left + 1)).
Proof.
  pose proof (qs_loop_leaves rand k (qs_width (QsState arr left right calls))
                (QsState arr left right calls)) as H.
  unfold quickselect. split; intros v arr' calls' Hq; rewrite Hq in H;
    unfold qs_width in H; simpl in H.
  - destruct H as (_ & _ & Hc). lia.
  - destruct H as (_ & Hc). lia.
Qed.

Lemma quickselect_only_rearranges_witness :
  ∃ v arr' calls',
    quickselect (λ _, 0%Qc) [Qc_of_Z 2; Qc_of_Z 1] 5 0 1 0 = QsFallback v arr' calls' ∧
    arr' ≡ₚ [Qc_of_Z 2; Qc_of_Z 1].
Proof.
  destruct (quickselect_only_rearranges (λ _, 0%Qc) [Qc_of_Z 2; Qc_of_Z 1] 5 0 1 0)
    as [(v & arr' & calls' & _ & _ & _ & Hk)|(v & arr' & calls' & Hq & Hp & _)].
  - intros n. split; [by vm_compute|reflexivity].
  - lia.
  - by vm_compute.
  - lia.
  - by exists v, arr', calls'.
Defined.

Lemma quickselect_draws_at_most_width_witness :
  ∃ v arr' calls',
    quickselect (λ _, 0%Qc) [Qc_of_Z 2; Qc_of_Z 1] 0 0 1 0 = QsFound v arr' calls' ∧
    Z.of_nat calls' ≤ 2.
Proof.
  eexists _, _, _. split; [reflexivity|].
  eapply (proj1 (quickselect_draws_at_most_width (λ _, 0%Qc) [Qc_of_Z 2; Qc_of_Z 1]
                   0 0 1 0)).
  reflexivity.
Defined.

(** ** mode, further *)

Lemma frequency_cons v x l :
  frequency v (x :: l) = ((if decide (x = v) then 1 else 0) + frequency v l)%nat.
Proof. unfold frequency. rewrite filter_cons. by destruct (decide (x = v)). Qed.

Lemma frequency_NoDup v l : NoDup l → (frequency v l ≤ 1)%nat.
Proof.
  induction 1 as [|x l Hx _ IH]; [unfold frequency; simpl; lia|].
  rewrite frequency_cons. destruct (decide (x = v)) as [->|]; [|done].
  assert (¬ (0 < frequency v l)%nat) by (by rewrite frequency_pos). lia.
Qed.

(** X17.  When every value occurs once, mode returns all of them, in
    ascending order. *)
Theorem mode_of_distinct_values arr k nums :
  extractNumbers arr k = Return nums →
  NoDup nums →
  mode arr k = Return (sort nums).
Proof.
  intros Hnums Hd. unfold mode. rewrite Hnums. simpl. f_equal.
  destruct (mode_of_spec nums) as (Hs & Hd' & Hiff).
  apply sorted_distinct_same; [done|apply sort_sorted|done|by rewrite sort_perm|].
  intros x. rewrite Hiff, sort_perm. split; [by intros [? _]|].
  intros Hx. split; [done|]. intros w.
  pose proof (frequency_NoDup w nums Hd). apply frequency_pos in Hx. lia.
Qed.

Lemma mode_of_distinct_values_witness :
  mode (VArray [VNumber (Fin (Qc_of_Z 3)); VNumber (Fin (Qc_of_Z 1))]) None
  = Return (sort [Qc_of_Z 3; Qc_of_Z 1]).
Proof.
  apply (mode_of_distinct_values
           (VArray [VNumber (Fin (Qc_of_Z 3)); VNumber (Fin (Qc_of_Z 1))]) None
           [Qc_of_Z 3; Qc_of_Z 1] eq_refl).
  apply NoDup_cons. split; [|apply NoDup_singleton].
  intros H. apply list_elem_of_singleton in H. discriminate H.
Defined.

Lemma most_frequent_exists nums :
  nums ≠ [] → ∃ v, v ∈ nums ∧ ∀ w, (frequency w nums ≤ frequency v nums)%nat.
Proof.
  intros Hne.
  assert (mode_inv nums (foldl mode_count ([], 0%nat) nums)) as [_ _ Hmax _ Hatt].
  { apply (mode_loop_inv nums []).
    split; simpl; intros; first [done | constructor | (unfold frequency; simpl; lia)]. }
  destruct (Hatt Hne) as [v Hv]. exists v. split.
  - apply frequency_pos. destruct nums as [|x l]; [done|].
    pose proof (Hmax x) as Hx. rewrite <- Hv in Hx.
    assert (0 < frequency x (x :: l))%nat; [|lia]. apply frequency_pos. left.
  - intros w. rewrite Hv. apply Hmax.
Qed.

(** X18.  On a non-empty sequence mode returns at least one value, each
    of them a value of the sequence; and the modes of the modes are the
    modes. *)
Theorem mode_nonempty_and_stable arr k nums :
  extractNumbers arr k = Return nums →
  nums ≠ [] →
  ∃ res, mode arr k = Return res ∧ res ≠ [] ∧
         (∀ v, v ∈ res → v ∈ nums) ∧
         mode_of res = res.
Proof.
  intros Hnums Hne. exists (mode_of nums). unfold mode. rewrite Hnums.
  split; [done|].
  destruct (mode_of_spec nums) as (Hs & Hd & Hiff).
  split; [|split].
  - destruct (most_frequent_exists nums Hne) as (v & Hv & Hall).
    intros Hnil. assert (v ∈ mode_of nums) as Hin by (by apply Hiff).
    rewrite Hnil in Hin. by apply not_elem_of_nil in Hin.
  - intros v Hv. by apply Hiff.
  - destruct (mode_of_spec (mode_of nums)) as (Hs' & Hd' & Hiff').
    apply sorted_distinct_same; [done..|].
    intros x. rewrite Hiff'. split; [by intros [? _]|].
    intros Hx. split; [done|]. intros w.
    pose proof (frequency_NoDup w _ Hd). apply frequency_pos in Hx. lia.
Qed.

Lemma mode_nonempty_and_stable_witness :
  ∃ res, mode (VArray [VNumber (Fin (Qc_of_Z 3)); VNumber (Fin (Qc_of_Z 3))]) None
         = Return res ∧ res ≠ [].
Proof.
  destruct (mode_nonempty_and_stable
              (VArray [VNumber (Fin (Qc_of_Z 3)); VNumber (Fin (Qc_of_Z 3))]) None
              [Qc_of_Z 3; Qc_of_Z 3] eq_refl ltac:(discriminate))
    as (res & Hres & Hne & _).
  exists res. split; [exact Hres|exact Hne].
Defined.

(** ** percentile, further *)

Lemma Math_floor_unique x n :
  (Qc_of_Z n ≤ x)%Qc → (x < Qc_of_Z (n + 1))%Qc → Math_floor x = n.
Proof. intros Hle Hlt. by apply Qfloor_unique. Qed.

Lemma Math_ceil_unique x n :
  (Qc_of_Z (n - 1) < x)%Qc → (x ≤ Qc_of_Z n)%Qc → Math_ceil x = n.
Proof.
  intros Hlt Hle. unfold Math_ceil.
  pose proof (Qle_ceiling x) as Hc. pose proof (Qceiling_lt x) as Hc'.
  assert (n - 1 < Qceiling x).
  { rewrite Zlt_Qlt. eapply Qlt_le_trans; [exact Hlt|exact Hc]. }
  assert (Qceiling x - 1 < n).
  { rewrite Zlt_Qlt. eapply Qlt_le_trans; [exact Hc'|exact Hle]. }
  lia.
Qed.

Lemma ceil_after_floor x : Math_floor x ≠ Math_ceil x → Math_ceil x = Math_floor x + 1.
Proof.
  intros Hne. pose proof (floor_le_ceil x) as Hle.
  assert (Math_ceil x ≤ Math_floor x + 1); [|lia].
  unfold Math_floor, Math_ceil. rewrite <- (Qceiling_Z (Qfloor x + 1)).
  apply Qceiling_resp_le, Qlt_le_weak, Qlt_floor.
Qed.

Lemma whole_rank x : (x - Qc_of_Z (Math_floor x) = 0)%Qc → Math_floor x = Math_ceil x.
Proof.
  intros Hw. assert (x = Qc_of_Z (Math_floor x)) as Hx.
  { rewrite <- (Qcplus_0_l (Qc_of_Z (Math_floor x))), <- Hw. ring. }
  unfold Math_ceil. rewrite Hx at 2. simpl. by rewrite Qceiling_Z.
Qed.

(** X19.  For every [p] from 0 to 100 and every non-empty sequence,
    percentile reads the sorted copy inside its bounds only and returns
    either a value of the sequence, or the rounded interpolation of two
    neighbours of the sorted copy with a weight strictly between 0 and
    1. *)
Theorem percentile_interpolates_between_values arr k nums p :
  extractNumbers arr k = Return nums →
  nums ≠ [] →
  (0 ≤ p)%Qc → (p ≤ Qc_of_Z 100)%Qc →
  ∃ r, percentile arr (Fin p) k = Return (Fin r) ∧
       (r ∈ nums ∨
        ∃ i a b w,
          get (sort nums) i = Some a ∧ get (sort nums) (i + 1) = Some b ∧
          (a ≤ b)%Qc ∧ (0 < w)%Qc ∧ (w < 1)%Qc ∧
          r = toFixedNumber (a * (1 - w) + b * w)%Qc).
Proof.
  intros Hnums Hne Hp0 Hp100.
  destruct (percentile_ranks arr k nums p Hnums Hne Hp0 Hp100)
    as (lv & uv & Hlv & Huv & Hlvin & _ & Hle & Hw0 & Hw1 & ->).
  set (index := (p / Qc_of_Z 100 * Qc_of_Z (len (sort nums) - 1))%Qc) in *.
  destruct (decide (p = 0%Qc)).
  { destruct nums as [|x rest]; [done|]. simpl. eexists. split; [done|].
    left. apply foldl_min_spec. }
  destruct (decide (p = Qc_of_Z 100)).
  { destruct nums as [|x rest]; [done|]. simpl. eexists. split; [done|].
    left. apply foldl_max_spec. }
  destruct (decide (Math_floor index = Math_ceil index)) as [|Hrank].
  { eexists. split; [done|]. by left. }
  eexists. split; [done|]. right.
  exists (Math_floor index), lv, uv, (index - Qc_of_Z (Math_floor index))%Qc.
  rewrite <- (ceil_after_floor index Hrank).
  split; [done|]. split; [done|]. split; [done|]. split; [|done].
  apply Qcle_lt_or_eq in Hw0 as [Hpos|Hzero]; [done|].
  destruct Hrank. by apply whole_rank.
Qed.

Lemma percentile_interpolates_between_values_witness :
  ∃ r, percentile (VArray [VNumber (Fin (Qc_of_Z 1)); VNumber (Fin (Qc_of_Z 2))])
         (Fin (Qc_of_Z 30)) None = Return (Fin r).
Proof.
  destruct (percentile_interpolates_between_values
              (VArray [VNumber (Fin (Qc_of_Z 1)); VNumber (Fin (Qc_of_Z 2))]) None
              [Qc_of_Z 1; Qc_of_Z 2] (Qc_of_Z 30) eq_refl)
    as (r & Hr & _).
  - discriminate.
  - by vm_compute.
  - by vm_compute.
  - by exists r.
Defined.

Lemma fifty_percent : (Qc_of_Z 50 / Qc_of_Z 100)%Qc = (1 / 2)%Qc.
Proof. apply Qc_is_canon. reflexivity. Qed.

Lemma Math_floor_integer n : Math_floor (Qc_of_Z n) = n.
Proof. apply Qfloor_Z. Qed.

Lemma Math_ceil_integer n : Math_ceil (Qc_of_Z n) = n.
Proof. apply Qceiling_Z. Qed.

Lemma between_integers n :
  (Qc_of_Z (n - 1) < Qc_of_Z n - 1 / 2)%Qc ∧ (Qc_of_Z n - 1 / 2 < Qc_of_Z n)%Qc.
Proof.
  rewrite Z2Qc_inj_sub, Z2Qc_inj_1. split.
  - apply (proj1 (Qcplus_lt_mono_l _ _ (Qc_of_Z n))). by vm_compute.
  - rewrite <- (Qcplus_0_r (Qc_of_Z n)) at 2.
    apply (proj1 (Qcplus_lt_mono_l _ _ (Qc_of_Z n))). by vm_compute.
Qed.

(** X20.  The percentile at 50 is the median by full sort, rounded when
    the count is even; so it is what median returns, except for an even
    count below the threshold, where it is the rounded value of what
    median returns. *)
Theorem percentile_50_is_median rand arr k nums :
  unit_interval rand →
  extractNumbers arr k = Return nums →
  nums ≠ [] →
  ∃ m r,
    medianOf (sort nums) = Return m ∧
    percentile arr (Fin (Qc_of_Z 50)) k
      = Return (Fin (if decide (len nums mod 2 = 0) then toFixedNumber m else m)) ∧
    median rand arr k = Return r ∧
    percentile arr (Fin (Qc_of_Z 50)) k
      = Return (Fin (if decide (len nums < THRESHOLD ∧ len nums mod 2 = 0)
                     then toFixedNumber r else r)).
Proof.
  intros Hrand Hnums Hne.
  destruct (median_of_agrees rand nums Hrand Hne) as (m & Hm & Hmed).
  assert (percentile arr (Fin (Qc_of_Z 50)) k
          = Return (Fin (if decide (len nums mod 2 = 0) then toFixedNumber m else m)))
    as Hperc.
  { unfold percentile.
    assert (number_ltb (Fin (Qc_of_Z 50)) (Fin 0%Qc)
            || number_ltb (Fin (Qc_of_Z 100)) (Fin (Qc_of_Z 50)) = false) as -> by done.
    rewrite Hnums, bind_Return.
    pose proof (nonempty_len _ Hne) as Hlen.
    rewrite decide_False by (unfold len in Hlen; lia).
    rewrite decide_False
      by (intros H; rewrite <- Z2Qc_inj_0 in H; by apply Z2Qc_inj in H).
    rewrite decide_False by (intros H; by apply Z2Qc_inj in H).
    cbv zeta. rewrite sort_length, fifty_percent.
    unfold medianOf in Hm. rewrite sort_length in Hm.
    pose proof (Z.div_mod (len nums) 2 ltac:(lia)) as Hdiv.
    pose proof (Z.mod_pos_bound (len nums) 2 ltac:(lia)) as Hmod.
    set (mid := len nums / 2) in *.
    destruct (decide (len nums mod 2 = 0)) as [Heven|Hodd].
    - rewrite decide_False in Hm by lia.
      assert (1 / 2 * Qc_of_Z (len nums - 1) = Qc_of_Z mid - 1 / 2)%Qc as ->.
      { replace (len nums - 1) with (2 * mid - 1) by lia.
        rewrite Z2Qc_inj_sub, Z2Qc_inj_mul, Z2Qc_inj_2, Z2Qc_inj_1. by field. }
      destruct (between_integers mid) as [Hlo Hhi].
      rewrite (Math_floor_unique _ (mid - 1));
        [|by apply Qclt_le_weak|by replace (mid - 1 + 1) with mid by lia].
      rewrite (Math_ceil_unique _ mid); [|done|by apply Qclt_le_weak].
      rewrite decide_False by lia.
      destruct (get (sort nums) (mid - 1)) as [a|]; [|done]. simpl in *.
      destruct (get (sort nums) mid) as [b|]; [|done]. simpl in *.
      injection Hm as <-. do 3 f_equal.
      rewrite Z2Qc_inj_sub, Z2Qc_inj_1. by field.
    - rewrite decide_True in Hm by lia.
      assert (1 / 2 * Qc_of_Z (len nums - 1) = Qc_of_Z mid)%Qc as ->.
      { replace (len nums - 1) with (2 * mid) by lia.
        rewrite Z2Qc_inj_mul, Z2Qc_inj_2. by field. }
      rewrite Math_floor_integer, Math_ceil_integer, decide_True by done.
      destruct (get (sort nums) mid) as [v|]; [|done]. simpl in *. congruence. }
  exists m. eexists. split; [done|]. split; [done|].
  unfold median. rewrite Hnums, bind_Return. split; [exact Hmed|].
  rewrite Hperc. do 2 f_equal.
  repeat case_decide; first [done | lia].
Qed.

Lemma percentile_50_is_median_witness :
  ∃ m, medianOf (sort [Qc_of_Z 4; Qc_of_Z 1; Qc_of_Z 9]) = Return m ∧
       percentile (VArray [VNumber (Fin (Qc_of_Z 4)); VNumber (Fin (Qc_of_Z 1));
                           VNumber (Fin (Qc_of_Z 9))]) (Fin (Qc_of_Z 50)) None
       = Return (Fin m).
Proof.
  destruct (percentile_50_is_median (λ _, 0%Qc)
              (VArray [VNumber (Fin (Qc_of_Z 4)); VNumber (Fin (Qc_of_Z 1));
                       VNumber (Fin (Qc_of_Z 9))]) None
              [Qc_of_Z 4; Qc_of_Z 1; Qc_of_Z 9])
    as (m & r & Hm & Hp & _).
  - intros n. split; [by vm_compute|reflexivity].
  - reflexivity.
  - discriminate.
  - exists m. split; [exact Hm|exact Hp].
Defined.

(** ** The JavaScript build against the TypeScript build *)

Lemma js_extractNumbers arr k : Js.extractNumbers arr k = extractNumbers arr k.
Proof.
  unfold Js.extractNumbers, extractNumbers.
  destruct arr as [| | | | | |elems]; try done.
  destruct (decide (length elems = 0%nat)) as [Hz|]; [|done].
  destruct elems; [|done]. by destruct (truthy k).
Qed.

(** X21.  The extractor of the JavaScript build, which has no early
    return on the empty array, extracts what the TypeScript one extracts,
    and mean, median and range of the two builds agree on every input. *)
Theorem js_build_agrees rand arr k :
  Js.extractNumbers arr k = extractNumbers arr k ∧
  Js.mean arr k = mean arr k ∧
  Js.median rand arr k = median rand arr k ∧
  Js.range arr k = range arr k.
Proof.
  unfold Js.mean, Js.median, Js.range, mean, median, range, median_of.
  rewrite !js_extractNumbers. done.
Qed.

(** X22.  The TypeScript mode is the JavaScript mode, sorted: the
    JavaScript build returns the same values in the order in which the
    map lists them. *)
Theorem js_mode_is_unsorted_mode arr k :
  mode arr k = (res ← Js.mode arr k; Return (sort res)).
Proof.
  unfold Js.mode, mode, mode_of. rewrite js_extractNumbers.
  destruct (extractNumbers arr k) as [nums|e|]; simpl; [|done..].
  by destruct (decide _).
Qed.

Lemma js_variance_cases arr s b other sample :
  Js.variance arr (VString s) sample
    = variance arr {| key := Some s; isSample := sample |} ∧
  Js.variance arr (VBool b) sample
    = variance arr {| key := None; isSample := Some b |} ∧
  ((∀ s', other ≠ VString s') → (∀ b', other ≠ VBool b') →
   Js.variance arr other sample = variance arr {| key := None; isSample := sample |}).
Proof.
  assert (∀ k (smp : bool),
    (nums ← extractNumbers arr k;
     let divisor := if smp then len nums - 1 else len nums in
     if decide (divisor ≤ 0) then
       if decide (length nums = 0%nat) then Return 0%Qc else Throw InsufficientData
     else
       Return (toFixedNumber
                 (sumOfSquares nums (sum nums / Qc_of_nat (length nums))
                  / Qc_of_Z divisor)%Qc))
    = variance arr {| key := k; isSample := Some smp |}) as Hcore.
  { intros k smp. unfold variance. simpl.
    destruct (extractNumbers arr k) as [nums|e|]; simpl; [|done..].
    unfold len. destruct smp; repeat case_decide; first [done | lia]. }
  assert (∀ k smp, variance arr {| key := k; isSample := Some (default true smp) |}
                   = variance arr {| key := k; isSample := smp |}) as Hdef.
  { intros k [[]|]; done. }
  unfold Js.variance. rewrite !js_extractNumbers.
  split; [|split].
  - by rewrite <- Hdef, <- Hcore.
  - by rewrite <- Hcore.
  - intros Hs Hb. rewrite <- Hdef, <- Hcore.
    destruct other; try done; [by destruct (Hb b0)|by destruct (Hs s0)].
Qed.

(** X23.  The positional arguments of the JavaScript variance are the
    options of the TypeScript one: a string is the key, a boolean is the
    sample flag and takes precedence over the third argument, anything
    else leaves the third argument in charge; the results agree, the
    empty sequence and the single observation included. *)
Theorem js_variance_agrees arr s b other sample :
  Js.variance arr (VString s) sample
    = variance arr {| key := Some s; isSample := sample |} ∧
  Js.variance arr (VBool b) sample
    = variance arr {| key := None; isSample := Some b |} ∧
  ((∀ s', other ≠ VString s') → (∀ b', other ≠ VBool b') →
   Js.variance arr other sample = variance arr {| key := None; isSample := sample |}).
Proof. apply js_variance_cases. Qed.

Lemma js_variance_agrees_witness :
  Js.variance (VArray [VNumber (Fin 1%Qc)]) VUndefined None
  = variance (VArray [VNumber (Fin 1%Qc)]) {| key := None; isSample := None |}.
Proof.
  apply (js_variance_agrees (VArray [VNumber (Fin 1%Qc)]) "" true VUndefined None);
    discriminate.
Defined.

(** X24.  With a square root that sends 0 to 0, the JavaScript stdev,
    which calls variance, and the TypeScript stdev, which repeats its
    code, agree. *)
Theorem js_stdev_agrees Math_sqrt arr s sample :
  Math_sqrt 0%Qc = 0%Qc →
  Js.stdev Math_sqrt arr (VString s) sample
    = stdev Math_sqrt arr {| key := Some s; isSample := sample |} ∧
  Js.stdev Math_sqrt arr VUndefined sample
    = stdev Math_sqrt arr {| key := None; isSample := sample |}.
Proof.
  intros Hsqrt.
  assert (∀ k, stdev Math_sqrt arr {| key := k; isSample := sample |}
               = v ← variance arr {| key := k; isSample := Some (default true sample) |};
                 Return (toFixedNumber (Math_sqrt v))) as Hst.
  { intros k. unfold stdev, variance. simpl.
    destruct (extractNumbers arr k) as [nums|e|]; simpl; [|done..].
    destruct (decide (length nums = 0%nat)).
    { simpl. by rewrite Hsqrt, toFixedNumber_zero. }
    destruct sample as [[]|]; simpl; by destruct (decide _). }
  unfold Js.stdev. split.
  - destruct (js_variance_cases arr s true VNull (Some (default true sample)))
      as (-> & _). by rewrite Hst.
  - destruct (js_variance_cases arr "" true VUndefined (Some (default true sample)))
      as (_ & _ & Hother). rewrite Hother by done. by rewrite Hst.
Qed.

Lemma js_stdev_agrees_witness :
  Js.stdev (λ x, x) (VArray []) VUndefined None
  = stdev (λ x, x) (VArray []) {| key := None; isSample := None |}.
Proof.
  apply (js_stdev_agrees (λ x, x) (VArray []) "" None). reflexivity.
Defined.

(** X25.  Where the TypeScript percentile refuses [p] before it looks at
    the input, the JavaScript percentile extracts first and then answers
    0: it reports the extractor's error if there is one, and never a range
    error.  For every other [p] the two builds agree. *)
Theorem js_percentile_answers_0_out_of_range arr p k :
  Js.percentile arr p k
  = if number_ltb p (Fin 0%Qc) || number_ltb (Fin (Qc_of_Z 100)) p
    then (_ ← extractNumbers arr k; Return (Fin 0%Qc))
    else percentile arr p k.
Proof.
  unfold Js.percentile, percentile. rewrite js_extractNumbers.
  destruct (extractNumbers arr k) as [nums|e|].
  - rewrite !bind_Return, <- orb_assoc.
    destruct (number_ltb p (Fin 0%Qc) || number_ltb (Fin (Qc_of_Z 100)) p).
    + by rewrite orb_true_r.
    + rewrite orb_false_r. unfold bool_decide. by destruct (decide_rel _ _ _).
  - by destruct (_ || _).
  - by destruct (_ || _).
Qed.

(** ** The benchmark *)

Lemma sortBasedMedian_medianOf arr :
  arr ≠ [] → sortBasedMedian arr = medianOf (sort arr).
Proof.
  intros Hne. unfold sortBasedMedian, medianOf.
  rewrite decide_False; [done|by destruct arr].
Qed.

(** X26.  The two medians the benchmark times against each other return
    the same number, whatever the random draws, except that on an even
    number of at least 32 values the library's median is the rounding of
    the sort-based one; on the empty array both return 0. *)
Theorem benchmark_medians_agree rand arr :
  unit_interval rand →
  quickselectMedian rand arr
  = (m ← sortBasedMedian arr;
     Return (if decide (THRESHOLD ≤ len arr ∧ len arr mod 2 = 0)
             then toFixedNumber m else m)).
Proof.
  intros Hrand. unfold quickselectMedian, median.
  assert (extractNumbers (VArray ((λ q, VNumber (Fin q)) <$> arr)) None = Return arr)
    as ->.
  { unfold extractNumbers. destruct (decide _) as [Hz|_].
    { rewrite length_fmap in Hz. by destruct arr. }
    simpl. by rewrite extract_loop_numbers. }
  simpl. destruct (decide (arr = [])) as [->|Hne].
  { vm_compute. done. }
  destruct (median_of_agrees rand arr Hrand Hne) as (m & Hm & ->).
  by rewrite sortBasedMedian_medianOf, Hm.
Qed.

Lemma benchmark_medians_agree_witness :
  quickselectMedian (λ _, 0%Qc) [Qc_of_Z 3; Qc_of_Z 1; Qc_of_Z 2] = Return (Qc_of_Z 2).
Proof.
  rewrite (benchmark_medians_agree (λ _, 0%Qc) [Qc_of_Z 3; Qc_of_Z 1; Qc_of_Z 2]).
  - qc_eval.
  - intros n. split; by vm_compute.
Defined.

(** ** The arrays the library hands out *)

Lemma keeps_mode_fresh σ0 arr key :
  Store.keeps σ0 (Store.mode arr key) (Store.unknown_to σ0).
Proof.
  unfold Store.mode.
  eapply StoreFacts.keeps_bind; [apply StoreFacts.keeps_extractNumbers|]. intros l Hl.
  eapply StoreFacts.keeps_bind; [apply StoreFacts.keeps_read_numbers|]. intros nums _.
  case_decide; [apply StoreFacts.keeps_alloc|]. cbv zeta.
  eapply StoreFacts.keeps_bind; [apply StoreFacts.keeps_alloc|]. intros res Hres.
  eapply StoreFacts.keeps_bind; [by apply StoreFacts.keeps_push_all|]. intros _ _.
  eapply StoreFacts.keeps_bind; [by apply StoreFacts.keeps_sort_in_place|]. intros _ _.
  by apply StoreFacts.keeps_ret.
Qed.

(** X27.  The array the extractor returns is a new one, also for the
    empty input and also without a key: it is none of the arrays the
    caller holds, it holds the extracted numbers, and the caller's arrays
    are as they were. *)
Theorem extractNumbers_returns_new_array
    (σ : gmap Store.loc (list value)) arr elems key nums :
  σ !! arr = Some elems →
  extractNumbers (VArray elems) key = Return nums →
  ∃ l σ', Store.extractNumbers arr key σ = (Return l, σ') ∧
          σ !! l = None ∧
          σ' !! l = Some (Store.values_of nums) ∧
          σ ⊆ σ'.
Proof.
  intros Harr Hnums.
  pose proof (store_extractNumbers_agrees σ arr elems key Harr) as Hex.
  rewrite Hnums in Hex. destruct Hex as (l & σ' & Hrun & Hl).
  destruct (StoreFacts.keeps_extractNumbers σ arr key σ) as [Hsub Hfresh]; [done|].
  rewrite Hrun in Hsub, Hfresh. simpl in *.
  exists l, σ'. repeat split; [done| |done|done].
  by apply Hfresh.
Qed.

Lemma extractNumbers_returns_new_array_witness :
  ∃ l σ', Store.extractNumbers 1%positive None {[ 1%positive := [] ]} = (Return l, σ') ∧
          ({[ 1%positive := [] ]} : gmap Store.loc (list value)) !! l = None ∧
          σ' !! l = Some (Store.values_of []) ∧
          ({[ 1%positive := [] ]} : gmap Store.loc (list value)) ⊆ σ'.
Proof.
  apply (extractNumbers_returns_new_array {[ 1%positive := [] ]} 1%positive [] None []);
    reflexivity.
Defined.

(** X28.  The array of modes is a new one as well: none of the caller's
    arrays, holding the modes, with the caller's arrays as they were. *)
Theorem mode_returns_new_array
    (σ : gmap Store.loc (list value)) arr elems key res :
  σ !! arr = Some elems →
  mode (VArray elems) key = Return res →
  ∃ l σ', Store.mode arr key σ = (Return l, σ') ∧
          σ !! l = None ∧
          σ' !! l = Some (Store.values_of res) ∧
          σ ⊆ σ'.
Proof.
  intros Harr Hres.
  pose proof (store_mode_agrees σ arr elems key Harr) as Hex.
  rewrite Hres in Hex. destruct Hex as (l & σ' & Hrun & Hl).
  destruct (keeps_mode_fresh σ arr key σ) as [Hsub Hfresh]; [done|].
  rewrite Hrun in Hsub, Hfresh. simpl in *.
  exists l, σ'. repeat split; [done| |done|done].
  by apply Hfresh.
Qed.

Lemma mode_returns_new_array_witness :
  ∃ l σ', Store.mode 1%positive None {[ 1%positive := [] ]} = (Return l, σ') ∧
          ({[ 1%positive := [] ]} : gmap Store.loc (list value)) !! l = None ∧
          σ' !! l = Some (Store.values_of []) ∧
          ({[ 1%positive := [] ]} : gmap Store.loc (list value)) ⊆ σ'.
Proof.
  apply (mode_returns_new_array {[ 1%positive := [] ]} 1%positive [] None []);
    reflexivity.
Defined.
